(** * The elements inspector of Flipper: flattening, navigation, highlighting

    A shallow embedding of
    [src/ui/components/elements-inspector/elements.js]: the walk that
    flattens the element tree into rows ([Elements.setProps] and its inner
    function [seed]), the keyboard handler [Elements.onKeyDown], the row
    builder [Elements.buildRow] and the text highlighting of
    [PartialHighlight], [ElementsRowAttribute] and [ElementsRow]. *)

From stdpp Require Import gmap list strings.
From Stdlib Require Import Ascii NArith ZArith Lia.

Local Open Scope Z_scope.

(** ** JavaScript values *)

(** A JavaScript string is its sequence of UTF-16 code units. *)
Abbreviation jsstring := (list N).

(** A string literal of the source (all of them are ASCII). *)
Fixpoint js (s : string) : jsstring :=
  match s with
  | EmptyString => []
  | String a s' => N_of_ascii a :: js s'
  end.

(** [ElementID] is imported from [ElementsInspector.js]; it is used as a
    property key of [props.elements], an element of a [Set] and an operand
    of [===], hence a string. *)
Abbreviation ElementID := jsstring (only parsing).

(** [l[i]] for a JavaScript number [i]: [None] stands for [undefined]. *)
Definition at_ {A} (l : list A) (i : Z) : option A :=
  if i <? 0 then None else l !! Z.to_nat i.

(** [Array.prototype.indexOf]: the first index holding [x], else [-1]. *)
Fixpoint indexOfFrom (l : list ElementID) (x : ElementID) (k : Z) : Z :=
  match l with
  | [] => -1
  | y :: l' => if decide (y = x) then k else indexOfFrom l' x (k + 1)
  end.

Definition indexOf (l : list ElementID) (x : ElementID) : Z := indexOfFrom l x 0.

(** Truthiness of a string: every string but the empty one. *)
Definition truthy (s : jsstring) : bool :=
  match s with [] => false | _ :: _ => true end.

(** ** Data model *)

Record ElementAttribute := {
  attr_name : jsstring;
  attr_value : jsstring;
}.

(** Modelled from the spec: the type [Element] is declared in
    [ElementsInspector.js], which is not part of the sources. The fields are
    the ones [elements.js] reads; [children] and [attributes] are tested
    against [null] by the code (lines 292, 307, 470), so they are optional
    here. *)
Record Element := {
  el_id : ElementID;
  el_name : jsstring;
  el_expanded : bool;
  el_children : option (list ElementID);
  el_attributes : option (list ElementAttribute);
  el_decoration : jsstring;
}.

(** Modelled from the spec: [ElementSearchResultSet] is declared in
    [ElementsInspector.js] as well: the query string (it may be [null]) and
    the set of matching identities. *)
Record ElementSearchResultSet := {
  query : option jsstring;
  matches : gset ElementID;
}.

Record FlatElement := {
  key : ElementID;
  element : Element;
  level : Z;
}.

Abbreviation FlatElements := (list FlatElement).

(** The props of [Elements] that the modelled code reads. The code reads
    the object [elements] by [props.elements[key]] only (lines 454 and
    505), and tests what it reads for truthiness only. The field [elements]
    is the table of that read: it takes a key to what [props.elements[key]]
    yields, be the key a property of the object itself or one that the
    object inherits from its prototype, and has no entry where the read
    yields nothing. [propertiesOf] below builds the table from the two.
    Where a comment below says that the store has a key, it is this table
    that has an entry for it. *)
Record ElementsProps := {
  root : option ElementID;
  selected : option ElementID;
  focused : option ElementID;
  searchResults : option ElementSearchResultSet;
  elements : gmap ElementID Element;
  alternateRowColor : bool;
}.

Record ElementsState := {
  flatKeys : list ElementID;
  flatElements : FlatElements;
  maxDepth : Z;
}.

(** The state set by the constructor. *)
Definition initialState : ElementsState :=
  {| flatKeys := []; flatElements := []; maxDepth := 0 |}.

(** ** The store as a JavaScript object *)

(** The table of the read [object[key]] for an object that has the
    properties [own] itself and inherits the properties [proto]: a property
    of the object itself comes before an inherited one of the same name. *)
Definition propertiesOf (proto own : gmap ElementID Element) : gmap ElementID Element :=
  own ∪ proto.

(** A function, as the code reads it when [props.elements[key]] yields it:
    [name] is the name of the function; [expanded], [children],
    [attributes], [decoration] and [id] are [undefined]. The code tests
    [expanded] for truthiness only, compares [decoration] with the four
    tags only and appends [id] to a string only, where [undefined] reads
    [undefined]. *)
Definition functionAsElement (name : string) : Element :=
  {| el_id := js "undefined"; el_name := js name; el_expanded := false;
     el_children := None; el_attributes := None;
     el_decoration := js "undefined" |}.

(** The methods that an object literal inherits from [Object.prototype],
    by the name of the property ([constructor] is the function [Object]).
    The one other property of [Object.prototype], the accessor [__proto__],
    yields an object without a [name] and is left out: the table is that of
    the read for every other key. *)
Definition objectPrototype : gmap ElementID Element :=
  list_to_map
    [ (js "constructor", functionAsElement "Object");
      (js "hasOwnProperty", functionAsElement "hasOwnProperty");
      (js "isPrototypeOf", functionAsElement "isPrototypeOf");
      (js "propertyIsEnumerable", functionAsElement "propertyIsEnumerable");
      (js "toLocaleString", functionAsElement "toLocaleString");
      (js "toString", functionAsElement "toString");
      (js "valueOf", functionAsElement "valueOf");
      (js "__defineGetter__", functionAsElement "__defineGetter__");
      (js "__defineSetter__", functionAsElement "__defineSetter__");
      (js "__lookupGetter__", functionAsElement "__lookupGetter__");
      (js "__lookupSetter__", functionAsElement "__lookupSetter__") ].

(** ** The flattening walk: [setProps] and [seed] *)

(** [for (const x of l) body(x)] over a state that [body] updates; [None]
    when a call of [body] does not return. *)
Fixpoint forOf {A S} (body : A -> S -> option S) (l : list A) (s : S) : option S :=
  match l with
  | [] => Some s
  | x :: l' =>
      match body x s with
      | Some s' => forOf body l' s'
      | None => None
      end
  end.

(** The test of lines 469-473:
    [element.children != null && element.children.length > 0 && element.expanded]. *)
Definition descends (e : Element) : bool :=
  match el_children e with
  | Some (_ :: _) => el_expanded e
  | _ => false
  end.

(** The children [seed] recurses into. *)
Definition childrenOf (e : Element) : list ElementID :=
  default [] (el_children e).

(** The three pushes of [seed]: [maxDepth], [flatElements], [flatKeys]. *)
Definition push (st : ElementsState) (k : ElementID) (e : Element) (lv : Z) : ElementsState :=
  {| maxDepth := Z.max (maxDepth st) lv;
     flatElements := flatElements st ++ [{| element := e; key := k; level := lv |}];
     flatKeys := flatKeys st ++ [k] |}.

(** [seed(key, level)], a closure over the three variables of [setProps]
    that it updates: they are threaded as an [ElementsState]. [els] is the
    table of the read [props.elements[key]], so [els !! k] is [None] exactly
    when [if (!element) return] is taken. The recursion of the source is
    not bounded by anything, so the model takes fuel (the depth of calls
    allowed): [None] means the fuel ran out. *)
Fixpoint seed (fuel : nat) (els : gmap ElementID Element)
    (k : ElementID) (lv : Z) (st : ElementsState) : option ElementsState :=
  match fuel with
  | O => None
  | S fuel' =>
      match els !! k with
      | None => Some st
      | Some e =>
          let st1 := push st k e lv in
          if descends e
          then forOf (fun c => seed fuel' els c (lv + 1)) (childrenOf e) st1
          else Some st1
      end
  end.

(** [setProps(props)]: the state handed to [setState]. *)
Definition setProps (fuel : nat) (props : ElementsProps) : option ElementsState :=
  match root props with
  | Some r => seed fuel (elements props) r 1 initialState
  | None => Some initialState
  end.

(** ** The pre-order traversal of the specification *)

(** The row of a visited node. *)
Definition rowOf (k : ElementID) (e : Element) (lv : Z) : FlatElement :=
  {| key := k; element := e; level := lv |}.

(** The specification's walk, as a relation between a start identity, a
    level and the rows produced, over the table of the nodes that are found:
    a missing node gives no row; a visited node
    gives one row, followed by the rows of its children, in their stored
    order and one level down, exactly when it has one or more children and
    its expansion flag is true. [PreorderAll] is the walk over a list of
    siblings. On a store with a cycle no rows are related to the nodes on
    the cycle: the walk of the specification is then infinite. *)
Inductive Preorder (els : gmap ElementID Element) : ElementID -> Z -> FlatElements -> Prop :=
  | pre_missing k lv :
      els !! k = None ->
      Preorder els k lv []
  | pre_stop k lv e :
      els !! k = Some e ->
      ¬ (childrenOf e ≠ [] ∧ el_expanded e = true) ->
      Preorder els k lv [rowOf k e lv]
  | pre_descend k lv e rows :
      els !! k = Some e ->
      childrenOf e ≠ [] -> el_expanded e = true ->
      PreorderAll els (childrenOf e) (lv + 1) rows ->
      Preorder els k lv (rowOf k e lv :: rows)
with PreorderAll (els : gmap ElementID Element) : list ElementID -> Z -> FlatElements -> Prop :=
  | pre_nil lv :
      PreorderAll els [] lv []
  | pre_cons c cs lv rows rows' :
      Preorder els c lv rows ->
      PreorderAll els cs lv rows' ->
      PreorderAll els (c :: cs) lv (rows ++ rows').

Scheme Preorder_mut := Induction for Preorder Sort Prop
  with PreorderAll_mut := Induction for PreorderAll Sort Prop.

(** The largest level of [rows], starting from [m]: what [Math.max] has
    accumulated in [maxDepth] after the rows were pushed. *)
Definition maxLevel (m : Z) (rows : FlatElements) : Z :=
  foldl (fun acc r => Z.max acc (level r)) m rows.

(** The state after the rows [rows] were appended to [st]. *)
Definition pushAll (st : ElementsState) (rows : FlatElements) : ElementsState :=
  {| flatKeys := flatKeys st ++ (key <$> rows);
     flatElements := flatElements st ++ rows;
     maxDepth := maxLevel (maxDepth st) rows |}.

(** The projection that consists of the rows [rows]. *)
Definition projection (rows : FlatElements) : ElementsState :=
  pushAll initialState rows.

(** [rows] is empty or starts with a row of level at most [lv]: a walk one
    level below [lv] cannot continue into [rows]. *)
Definition closes (lv : Z) (rows : FlatElements) : Prop :=
  match rows with
  | [] => True
  | r :: _ => level r <= lv
  end.

(** Every row but the first has a parent row: the nearest row before it of
    a smaller level. The parent is exactly one level up, is expanded, and
    lists the row's identity among its children. *)
Definition rowsHaveParents (rows : FlatElements) : Prop :=
  ∀ pre c post, rows = pre ++ c :: post -> pre ≠ [] ->
    ∃ pre' p mid, pre = pre' ++ p :: mid
      ∧ level c = level p + 1
      ∧ el_expanded (element p) = true
      ∧ key c ∈ childrenOf (element p)
      ∧ Forall (fun r => level p < level r) mid.

(** Every row is followed at once by the walk of its children, one level
    down, when it is expanded and has children, and by none of them
    otherwise; after that comes the end or a row that is not deeper. *)
Definition rowsThenChildren (els : gmap ElementID Element) (rows : FlatElements) : Prop :=
  ∀ pre p post, rows = pre ++ p :: post ->
    ∃ sub post', post = sub ++ post'
      ∧ closes (level p) post'
      ∧ Forall (fun r => level p < level r) sub
      ∧ Preorder els (key p) (level p) (p :: sub)
      ∧ if descends (element p)
        then PreorderAll els (childrenOf (element p)) (level p + 1) sub
        else sub = [].

(** ** Tree-shaped stores *)

(** The walk goes from [p] down to [c]: [p] is in the store, has one or
    more children, is expanded, and [c] is one of its children. *)
Definition walkEdge (els : gmap ElementID Element) (p c : ElementID) : Prop :=
  ∃ e, els !! p = Some e ∧ descends e = true ∧ c ∈ childrenOf e.

(** [k] is on the way of the walk that starts at [k0]. *)
Definition walkReach (els : gmap ElementID Element) (k0 k : ElementID) : Prop :=
  rtc (walkEdge els) k0 k.

(** What the walk from [k0] goes through is a tree: no node on its way
    leads back to itself (no cycle), no identity is a child of two nodes on
    its way, nor twice a child of one (no duplicate child reference). *)
Definition treeShaped (els : gmap ElementID Element) (k0 : ElementID) : Prop :=
  (∀ p, walkReach els k0 p -> ¬ tc (walkEdge els) p p)
  ∧ (∀ p1 p2 c, walkReach els k0 p1 -> walkReach els k0 p2 ->
       walkEdge els p1 c -> walkEdge els p2 c -> p1 = p2)
  ∧ (∀ p e, walkReach els k0 p -> els !! p = Some e -> descends e = true ->
       NoDup (childrenOf e)).

(** ** The keyboard handler: [onKeyDown] *)

(** The fields of the keyboard event that the handler reads. *)
Record KeyboardEvent := {
  ev_key : jsstring;
  metaKey : bool;
  ctrlKey : bool;
}.

(** What the handler does to the outside: [e.preventDefault()], the two
    callbacks of the props and the clipboard. The argument of
    [onElementSelected] is an array read, [None] when it is [undefined]. *)
Inductive Effect :=
  | PreventDefault
  | OnElementSelected (k : option ElementID)
  | OnElementExpanded (k : ElementID) (deep : bool)
  | ClipboardWriteText (text : jsstring).

(** How a statement ends, with the effects so far: it falls through to the
    next statement, it returns from the handler, or it throws a
    [TypeError] (a property read on [null] or [undefined]). *)
Inductive Flow :=
  | Next (log : list Effect)
  | Return (log : list Effect)
  | Throw (log : list Effect).

(** A statement takes the effects so far to a [Flow]. *)
Definition Stmt := list Effect -> Flow.

Definition skip : Stmt := Next.
Definition ret : Stmt := Return.
Definition throw : Stmt := Throw.
Definition emit (x : Effect) : Stmt := fun log => Next (log ++ [x]).

Definition andThen (s t : Stmt) : Stmt :=
  fun log =>
    match s log with
    | Next log' => t log'
    | Return log' => Return log'
    | Throw log' => Throw log'
    end.

Declare Scope stmt_scope.
Delimit Scope stmt_scope with stmt.
Bind Scope stmt_scope with Stmt.
Notation "s ;; t" := (andThen s t)
  (at level 100, t at level 200, right associativity) : stmt_scope.
Local Open Scope stmt_scope.

(** [if (b) { s }] *)
Definition when (b : bool) (s : Stmt) : Stmt := if b then s else skip.

(** How the handler ends: normally, or by an uncaught [TypeError]. *)
Inductive Outcome :=
  | Completed (log : list Effect)
  | TypeError (log : list Effect).

Definition run (s : Stmt) : Outcome :=
  match s [] with
  | Next log | Return log => Completed log
  | Throw log => TypeError log
  end.

(** [e.key === 'name'] *)
Definition isKey (e : KeyboardEvent) (name : string) : bool :=
  bool_decide (ev_key e = js name).

(** The loop of lines 547-553, from [i] down to [0]: [None] when
    [flatElements[i]] is [undefined] (destructuring it throws), else the
    value of [parentKey] after the loop ([None] for [undefined]). *)
Fixpoint parentScan (flatElements : FlatElements) (flatKeys : list ElementID)
    (targetLevel : Z) (i : nat) : option (option ElementID) :=
  match flatElements !! i with
  | None => None
  | Some r =>
      if level r =? targetLevel then Some (flatKeys !! i)
      else match i with
           | O => Some None
           | S i' => parentScan flatElements flatKeys targetLevel i'
           end
  end.

(** [onKeyDown(e)], on the props and the state of the component;
    [platform] is [process.platform]. The third guard is the read
    [props.elements[selected]] tested for truthiness, as in [seed]. *)
Definition onKeyDown (platform : jsstring) (e : KeyboardEvent)
    (props : ElementsProps) (state : ElementsState) : Outcome :=
  run
    match selected props with
    | None => ret
    | Some selected =>
        let selectedIndex := indexOf (flatKeys state) selected in
        if selectedIndex <? 0 then ret else
        match elements props !! selected with
        | None => ret
        | Some selectedElement =>
            when (isKey e "c"
                  && ((metaKey e && bool_decide (platform = js "darwin"))
                      || (ctrlKey e && negb (bool_decide (platform = js "darwin")))))
              (emit PreventDefault ;;
               emit (ClipboardWriteText (el_name selectedElement)) ;;
               ret) ;;
            when (isKey e "ArrowUp")
              (when ((selectedIndex =? 0) || (Z.of_nat (length (flatKeys state)) =? 1)) ret ;;
               emit PreventDefault ;;
               emit (OnElementSelected (at_ (flatKeys state) (selectedIndex - 1)))) ;;
            when (isKey e "ArrowDown")
              (when (selectedIndex =? Z.of_nat (length (flatKeys state)) - 1) ret ;;
               emit PreventDefault ;;
               emit (OnElementSelected (at_ (flatKeys state) (selectedIndex + 1)))) ;;
            when (isKey e "ArrowLeft")
              (emit PreventDefault ;;
               if el_expanded selectedElement
               then emit (OnElementExpanded selected false)
               else
                 match at_ (flatElements state) selectedIndex with
                 | None => throw
                 | Some r =>
                     let targetLevel := level r - 1 in
                     match parentScan (flatElements state) (flatKeys state)
                             targetLevel (Z.to_nat selectedIndex) with
                     | None => throw
                     | Some (Some parentKey) =>
                         when (truthy parentKey)
                           (emit (OnElementSelected (Some parentKey)))
                     | Some None => skip
                     end
                 end) ;;
            if isKey e "ArrowRight"
            then
              match el_children selectedElement with
              | None => throw
              | Some children =>
                  when (0 <? Z.of_nat (length children))
                    (emit PreventDefault ;;
                     if el_expanded selectedElement
                     then emit (OnElementSelected (children !! 0%nat))
                     else emit (OnElementExpanded selected false))
              end
            else skip
        end
    end.

(** *** What the handler is specified against *)

(** [x] is in [l] at index [i], and not before: [i] is what [l.indexOf(x)]
    returns. *)
Definition firstAt (l : list ElementID) (i : nat) (x : ElementID) : Prop :=
  l !! i = Some x ∧ x ∉ take i l.

(** Row [j], which is [p], is the nearest row at or before index [i] whose
    level is [target]: what the backward scan of ArrowLeft looks for. *)
Definition nearestAtLevel (rows : FlatElements) (i : nat) (target : Z)
    (j : nat) (p : FlatElement) : Prop :=
  (j <= i)%nat ∧ rows !! j = Some p ∧ level p = target
  ∧ ∀ j' r, (j < j' <= i)%nat -> rows !! j' = Some r -> level r ≠ target.

(** No row at or before index [i] has level [target]. *)
Definition noneAtLevel (rows : FlatElements) (i : nat) (target : Z) : Prop :=
  ∀ j r, (j <= i)%nat -> rows !! j = Some r -> level r ≠ target.

(** ** The row builder: [buildRow] *)

(** [searchResults != undefined && searchResults.matches.has(key)] *)
Definition containsKeyInSearchResults
    (searchResults : option ElementSearchResultSet) (k : ElementID) : bool :=
  match searchResults with
  | Some sr => bool_decide (k ∈ matches sr)
  | None => false
  end.

(** The loop of lines 588-595, at index [i] with [childrenCount] rows
    counted so far; [fuel] bounds the iterations left. *)
Fixpoint countLoop (flatElements : FlatElements) (rowLevel : Z)
    (fuel i : nat) (childrenCount : Z) : Z :=
  match fuel with
  | O => childrenCount
  | S fuel' =>
      match flatElements !! i with
      | None => childrenCount
      | Some child =>
          if level child <=? rowLevel then childrenCount
          else countLoop flatElements rowLevel fuel' (S i) (childrenCount + 1)
      end
  end.

(** The props that [buildRow] hands to [ElementsRow] (the callbacks, the
    context menu extensions and the decoration are passed through
    unchanged and left out). *)
Record ElementsRowProps := {
  row_level : Z;
  row_id : ElementID;
  row_even : bool;
  row_selected : bool;
  row_focused : bool;
  matchingSearchQuery : option jsstring;
  isQueryMatch : bool;
  row_element : Element;
  childrenCount : Z;
}.

(** [buildRow(row, index)] *)
Definition buildRow (props : ElementsProps) (state : ElementsState)
    (row : FlatElement) (index : nat) : ElementsRowProps :=
  {| row_level := level row;
     row_id := key row;
     row_even := if alternateRowColor props then Nat.even index else false;
     row_selected := bool_decide (selected props = Some (key row));
     row_focused := bool_decide (focused props = Some (key row));
     matchingSearchQuery :=
       if containsKeyInSearchResults (searchResults props) (key row)
       then searchResults props ≫= query
       else None;
     isQueryMatch := containsKeyInSearchResults (searchResults props) (key row);
     row_element := element row;
     childrenCount :=
       countLoop (flatElements state) (level row)
         (length (flatElements state)) (S index) 0 |}.

(** The rows that [render] builds: [this.state.flatElements.map(this.buildRow)]. *)
Definition renderRows (props : ElementsProps) (state : ElementsState) : list ElementsRowProps :=
  imap (fun index row => buildRow props state row index) (flatElements state).

(** The specification's [childrenCount] of the row at [index] is [n]: the
    [n] rows after it are deeper than it, and what follows them is the end
    or a row that is not deeper. *)
Definition childrenCountSpec (rows : FlatElements) (index : nat) (rowLevel : Z) (n : Z) : Prop :=
  ∃ sub post, drop (S index) rows = sub ++ post
    ∧ Forall (fun r => rowLevel < level r) sub
    ∧ closes rowLevel post
    ∧ n = Z.of_nat (length sub).

(** ** Highlighting: [PartialHighlight], [ElementsRowAttribute], [ElementsRow] *)

(** [t] is a prefix of [s]. *)
Fixpoint startsWith (s t : jsstring) {struct t} : bool :=
  match t, s with
  | [], _ => true
  | _ :: _, [] => false
  | b :: t', a :: s' => bool_decide (a = b) && startsWith s' t'
  end.

(** [String.prototype.indexOf], counting from [k]: the first index at which
    [t] occurs in [s], else [-1]. *)
Fixpoint stringIndexOfFrom (s t : jsstring) (k : Z) : Z :=
  if startsWith s t then k
  else match s with
       | [] => -1
       | _ :: s' => stringIndexOfFrom s' t (k + 1)
       end.

Definition stringIndexOf (s t : jsstring) : Z := stringIndexOfFrom s t 0.

(** [String.prototype.includes]: [indexOf] is not [-1]. *)
Definition includes (s t : jsstring) : bool :=
  negb (stringIndexOf s t =? -1).

(** [s.substring(start, end)]: both arguments are clamped to [0 .. s.length]
    and swapped when [start] is the larger one. *)
Definition substring (s : jsstring) (start end_ : Z) : jsstring :=
  let len := Z.of_nat (length s) in
  let finalStart := Z.min (Z.max start 0) len in
  let finalEnd := Z.min (Z.max end_ 0) len in
  let from := Z.min finalStart finalEnd in
  let to := Z.max finalStart finalEnd in
  take (Z.to_nat (to - from)) (drop (Z.to_nat from) s).

(** [s.substring(start)] *)
Definition substringFrom (s : jsstring) (start : Z) : jsstring :=
  substring s start (Z.of_nat (length s)).

(** What [PartialHighlight] renders: [<span>{content}</span>], or the span
    of [before], the highlighted [match] and [after]. (The prop [selected]
    changes the colour only.) *)
Inductive Rendered :=
  | Plain (content : jsstring)
  | Marked (before match_ after : jsstring).

(** The text of an attribute as rendered: its name, and its value through
    [PartialHighlight]. *)
Record AttributeView := {
  view_key : jsstring;
  view_value : Rendered;
}.

(** The text of a row as rendered: the name of the element through
    [PartialHighlight], then the attributes. *)
Record RowView := {
  view_name : Rendered;
  view_attributes : list AttributeView;
}.

Section Highlight.

(** [String.prototype.toLowerCase] of the runtime. *)
Variable toLowerCase : jsstring -> jsstring.

(** [PartialHighlight.render()] *)
Definition PartialHighlight (highlighted : option jsstring) (content : jsstring) : Rendered :=
  match highlighted with
  | None => Plain content
  | Some highlighted =>
      if truthy content && truthy highlighted
         && includes (toLowerCase content) (toLowerCase highlighted)
      then
        let highlightStart := stringIndexOf (toLowerCase content) (toLowerCase highlighted) in
        let highlightEnd := highlightStart + Z.of_nat (length highlighted) in
        Marked (substring content 0 highlightStart)
               (substring content highlightStart highlightEnd)
               (substringFrom content highlightEnd)
      else Plain content
  end.

(** [ElementsRowAttribute.render()] *)
Definition ElementsRowAttribute (name value : jsstring)
    (matchingSearchQuery : option jsstring) : AttributeView :=
  {| view_key := name;
     view_value :=
       PartialHighlight
         (if bool_decide (name = js "id") || bool_decide (name = js "addr")
          then matchingSearchQuery else Some (js ""))
         value |}.

(** [ElementsRow.render()]: the texts of the row. *)
Definition ElementsRow (props : ElementsRowProps) : RowView :=
  {| view_name := PartialHighlight (matchingSearchQuery props) (el_name (row_element props));
     view_attributes :=
       match el_attributes (row_element props) with
       | Some attributes =>
           (fun attr => ElementsRowAttribute (attr_name attr) (attr_value attr)
                          (matchingSearchQuery props)) <$> attributes
       | None => []
       end |}.

End Highlight.

(** The lower-case mapping of the runtime on one code unit, for the code
    units of Basic Latin and Latin-1 Supplement and for U+0130 (capital I
    with dot above, whose lower case is the two code units U+0069 U+0307).
    Other code units are kept, which is what the runtime does for the ones
    without a lower-case form only. *)
Definition lowerCaseUnit (c : N) : jsstring :=
  if ((65 <=? c) && (c <=? 90))%N then [(c + 32)%N]
  else if ((192 <=? c) && (c <=? 222) && negb (c =? 215))%N then [(c + 32)%N]
  else if (c =? 304)%N then [105%N; 775%N]
  else [c].

(** [toLowerCase] at which the examples are evaluated. *)
Definition toLowerCaseUnits (s : jsstring) : jsstring :=
  s ≫= lowerCaseUnit.

(** A row with nothing highlighted. *)
Definition plainView (e : Element) : RowView :=
  {| view_name := Plain (el_name e);
     view_attributes :=
       (fun a => {| view_key := attr_name a; view_value := Plain (attr_value a) |})
         <$> default [] (el_attributes e) |}.

(** [t] occurs in [s] at index [i], letter case aside: [s] has the code
    units of [t] from [i] on, up to the lower-case mapping [f] of code
    units. *)
Definition occursAt (f : N -> N) (s t : jsstring) (i : nat) : Prop :=
  (i + length t <= length s)%nat
  ∧ f <$> take (length t) (drop i s) = f <$> t.

(** [i] is the first index at which [t] occurs in [s], letter case aside. *)
Definition firstOccurrence (f : N -> N) (s t : jsstring) (i : nat) : Prop :=
  occursAt f s t i ∧ ∀ j, (j < i)%nat -> ¬ occursAt f s t j.

(** The case-insensitive substring highlight of the specification: the
    query [q] applied to [content]. Where the query is a non-empty string
    that [content] holds, letter case aside, the content is cut around the
    first place where it holds it: what comes before, the marked match,
    which has the length of the query, and what comes after. Otherwise (no
    query, an empty one, or one that the content does not hold) the content
    is shown whole. *)
Inductive Highlighted (f : N -> N) (q : option jsstring) (content : jsstring) :
    Rendered -> Prop :=
  | highlighted_first h i :
      q = Some h -> h ≠ [] -> firstOccurrence f content h i ->
      Highlighted f q content
        (Marked (take i content) (take (length h) (drop i content))
           (drop (i + length h) content))
  | highlighted_none :
      (∀ h, q = Some h -> h ≠ [] -> ¬ ∃ i, occursAt f content h i) ->
      Highlighted f q content (Plain content).

(** The row as the specification narrows the highlighting of the query
    [q]: [v] shows the element [e] with the query highlighted in the name
    of the node and in the values of the attributes named [id] or [addr],
    and with the values of all other attributes plain. *)
Definition NarrowedHighlight (f : N -> N) (q : option jsstring)
    (e : Element) (v : RowView) : Prop :=
  Highlighted f q (el_name e) (view_name v)
  ∧ Forall2
      (fun a av =>
         view_key av = attr_name a
         ∧ if decide (attr_name a = js "id" ∨ attr_name a = js "addr")
           then Highlighted f q (attr_value a) (view_value av)
           else view_value av = Plain (attr_value a))
      (default [] (el_attributes e)) (view_attributes v).

(** ** Example stores *)

(** A node without attributes. *)
Definition node (name : string) (expanded : bool) (children : list string) : Element :=
  {| el_id := js name; el_name := js name; el_expanded := expanded;
     el_children := Some (js <$> children); el_attributes := Some [];
     el_decoration := js "" |}.

(** The tree of the specification: [A -> [B, C]], [B -> [D]], with [A] and
    [B] expanded. *)
Definition exampleElements : gmap ElementID Element :=
  <[js "A" := node "A" true ["B"; "C"]]>
  (<[js "B" := node "B" true ["D"]]>
  (<[js "C" := node "C" false []]>
  (<[js "D" := node "D" false []]> ∅))).

(** The props of a component showing [els] from [r] with [sel] selected. *)
Definition propsOf (els : gmap ElementID Element) (r sel : option string) : ElementsProps :=
  {| root := js <$> r; selected := js <$> sel; focused := None;
     searchResults := None; elements := els; alternateRowColor := true |}.

Definition exampleRows : FlatElements :=
  [rowOf (js "A") (node "A" true ["B"; "C"]) 1;
   rowOf (js "B") (node "B" true ["D"]) 2;
   rowOf (js "D") (node "D" false []) 3;
   rowOf (js "C") (node "C" false []) 2].

(** A key press without modifiers. *)
Definition press (name : string) : KeyboardEvent :=
  {| ev_key := js name; metaKey := false; ctrlKey := false |}.

(** A store whose root has the empty string as its identity. *)
Definition emptyIdElements : gmap ElementID Element :=
  <[js "" := node "" true ["b"]]> (<[js "b" := node "b" false []]> ∅).

Definition emptyIdRows : FlatElements :=
  [rowOf (js "") (node "" true ["b"]) 1; rowOf (js "b") (node "b" false []) 2].

(** An element whose [children] is [null]. *)
Definition childless (name : string) : Element :=
  {| el_id := js name; el_name := js name; el_expanded := false;
     el_children := None; el_attributes := Some [];
     el_decoration := js "" |}.

Definition nullChildrenElements : gmap ElementID Element :=
  <[js "a" := childless "a"]> ∅.

(** A store with a duplicate child reference: [A -> [B, B]]. *)
Definition duplicateElements : gmap ElementID Element :=
  <[js "A" := node "A" true ["B"; "B"]]> (<[js "B" := node "B" false []]> ∅).

(** A store with a cycle: [A -> [A]]. *)
Definition cyclicElements : gmap ElementID Element :=
  <[js "A" := node "A" true ["A"]]> ∅.

(** An element with a name and three attributes, and a search result that
    matches it with the query [ok]. *)
Definition okButton : Element :=
  {| el_id := js "7"; el_name := js "OkButton"; el_expanded := false;
     el_children := Some [];
     el_attributes :=
       Some [ {| attr_name := js "id"; attr_value := js "ok_1" |};
              {| attr_name := js "text"; attr_value := js "ok" |};
              {| attr_name := js "addr"; attr_value := js "0xOK" |} ];
     el_decoration := js "" |}.

Definition okSearch : ElementSearchResultSet :=
  {| query := Some (js "ok"); matches := {[ js "7" ]} |}.

Definition okProps : ElementsProps :=
  {| root := Some (js "7"); selected := None; focused := None;
     searchResults := Some okSearch;
     elements := <[js "7" := okButton]> ∅; alternateRowColor := true |}.

(** An element whose name and [id] start with U+0130 (capital I with dot
    above), matched by a search for [stan]. *)
Definition istanbul : Element :=
  {| el_id := js "9"; el_name := 304%N :: js "stanbul"; el_expanded := false;
     el_children := Some [];
     el_attributes :=
       Some [ {| attr_name := js "id"; attr_value := 304%N :: js "stanbul" |};
              {| attr_name := js "text"; attr_value := js "stan" |} ];
     el_decoration := js "" |}.

Definition istanbulSearch : ElementSearchResultSet :=
  {| query := Some (js "stan"); matches := {[ js "9" ]} |}.

Definition istanbulProps : ElementsProps :=
  {| root := Some (js "9"); selected := None; focused := None;
     searchResults := Some istanbulSearch;
     elements := <[js "9" := istanbul]> ∅; alternateRowColor := true |}.

(** An object literal without properties as the store, with [toString] as
    the root and as the selection. *)
Definition emptyObjectProps : ElementsProps :=
  propsOf (propertiesOf objectPrototype ∅) (Some "toString") (Some "toString").

(** An object literal whose one node [A] lists [toString] as its child. *)
Definition toStringChild : gmap ElementID Element :=
  <[js "A" := node "A" true ["toString"]]> ∅.

(** The tree of the specification in an object literal. *)
Definition exampleObject : gmap ElementID Element :=
  propertiesOf objectPrototype exampleElements.

(** [ctrl] and [c]. *)
Definition ctrlC : KeyboardEvent :=
  {| ev_key := js "c"; metaKey := false; ctrlKey := true |}.

(** The lower case of ASCII letters, code unit by code unit. *)
Definition asciiLower (c : N) : N :=
  if ((65 <=? c) && (c <=? 90))%N then (c + 32)%N else c.

(** The depth of the tree of the specification below a node. *)
Definition exampleRank (k : ElementID) : nat :=
  if decide (k = js "A") then 2 else if decide (k = js "B") then 1 else 0.

(** The component showing the tree of the specification, with [B]
    selected. *)
Definition exampleProps : ElementsProps :=
  propsOf exampleElements (Some "A") (Some "B").

(** ** The styles of a row *)

(** [ROW_HEIGHT] *)
Definition ROW_HEIGHT : Z := 23.

(** The colours of [colors.tsx] that the row reads; the table is imported,
    so it is a parameter of what follows. *)
Record Colors := {
  macOSTitleBarIconSelected : jsstring;
  purpleLight : jsstring;
  light02 : jsstring;
  white : jsstring;
  grapeDark3 : jsstring;
  light80 : jsstring;
}.

(** The computed part of the style of [ElementsRowContainer]: the
    background, the text colour of the row and of all that is in it, the
    height, the left padding and the background while hovered. *)
Record ContainerStyle := {
  css_backgroundColor : jsstring;
  css_color : jsstring;
  css_descendantsColor : jsstring;
  css_height : Z;
  css_paddingLeft : Z;
  css_hoverBackgroundColor : jsstring;
}.

Section Styles.

Variable colors : Colors.

(** [backgroundColor(props)] *)
Definition backgroundColor (props : ElementsRowProps) : jsstring :=
  if row_selected props then macOSTitleBarIconSelected colors
  else if isQueryMatch props then purpleLight colors
  else if row_focused props then js "#00CF52"
  else if row_even props then light02 colors
  else js "".

(** [backgroundColorHover(props)] *)
Definition backgroundColorHover (props : ElementsRowProps) : jsstring :=
  if row_selected props then macOSTitleBarIconSelected colors
  else if row_focused props then js "#00CF52"
  else js "#EBF1FB".

(** The style function of [ElementsRowContainer], on the props that
    [ElementsRow.render] hands to it. *)
Definition ElementsRowContainer (props : ElementsRowProps) : ContainerStyle :=
  {| css_backgroundColor := backgroundColor props;
     css_color :=
       if row_selected props || row_focused props
       then white colors else grapeDark3 colors;
     css_descendantsColor :=
       if row_selected props || row_focused props
       then white colors ++ js " !important" else js "";
     css_height := ROW_HEIGHT;
     css_paddingLeft := (row_level props - 1) * 12;
     css_hoverBackgroundColor := backgroundColorHover props |}.

End Styles.

(** The height that the style function of [ElementsLine] computes. *)
Definition ElementsLine (childrenCount : Z) : Z :=
  childrenCount * ROW_HEIGHT - 4.

(** ** The row component: [ElementsRow] *)

(** The state of a row; the constructor sets [hovered] to [false]. *)
Record ElementsRowState := {
  hovered : bool;
}.

Definition initialRowState : ElementsRowState := {| hovered := false |}.

(** What the handlers of a row do to the outside: the callbacks to the host
    that the key handler has too, [onElementHovered], and the interaction
    tracker with the level it is given. *)
Inductive RowEffect :=
  | Host (x : Effect)
  | OnElementHovered (k : option ElementID)
  | Interaction (name : jsstring) (lv : Z).

(** [onClick()] *)
Definition onClick (props : ElementsRowProps) : list RowEffect :=
  [Host (OnElementSelected (Some (row_id props)));
   Interaction (js "selected") (row_level props)].

(** [onDoubleClick(event)], on [event.altKey]. *)
Definition onDoubleClick (props : ElementsRowProps) (altKey : bool) : list RowEffect :=
  [Host (OnElementExpanded (row_id props) altKey)].

(** [onMouseEnter()]; [hasOnElementHovered] tells whether the prop
    [onElementHovered] is set. *)
Definition onMouseEnter (hasOnElementHovered : bool) (props : ElementsRowProps)
    (state : ElementsRowState) : ElementsRowState * list RowEffect :=
  ({| hovered := true |},
   if hasOnElementHovered then [OnElementHovered (Some (row_id props))] else []).

(** [onMouseLeave()] *)
Definition onMouseLeave (hasOnElementHovered : bool) (props : ElementsRowProps)
    (state : ElementsRowState) : ElementsRowState * list RowEffect :=
  ({| hovered := false |},
   if hasOnElementHovered then [OnElementHovered None] else []).

(** A mouse event on a row. *)
Inductive MouseEvent :=
  | MouseEnter
  | MouseLeave
  | Click
  | DoubleClick (altKey : bool).

(** The handler that [render] binds to each mouse event. *)
Definition onMouse (hasOnElementHovered : bool) (props : ElementsRowProps)
    (ev : MouseEvent) (state : ElementsRowState) : ElementsRowState * list RowEffect :=
  match ev with
  | MouseEnter => onMouseEnter hasOnElementHovered props state
  | MouseLeave => onMouseLeave hasOnElementHovered props state
  | Click => (state, onClick props)
  | DoubleClick altKey => (state, onDoubleClick props altKey)
  end.

(** The handlers run one after the other, the effects in order. *)
Fixpoint onMouseAll (hasOnElementHovered : bool) (props : ElementsRowProps)
    (evs : list MouseEvent) (state : ElementsRowState) : ElementsRowState * list RowEffect :=
  match evs with
  | [] => (state, [])
  | ev :: evs' =>
      let '(state1, log1) := onMouse hasOnElementHovered props ev state in
      let '(state2, log2) := onMouseAll hasOnElementHovered props evs' state1 in
      (state2, log1 ++ log2)
  end.

(** *** The context menu *)

(** [ContextMenuExtension]: a label and a callback on the identity of the
    row; [A] is what a callback does. *)
Record ContextMenuExtension (A : Type) := {
  ext_label : jsstring;
  ext_click : ElementID -> A;
}.

Arguments ext_label {A} _.
Arguments ext_click {A} _ _.

(** What the click of a menu item does: a call to the host or to the
    clipboard, or the callback of an extension. *)
Inductive MenuClick (A : Type) :=
  | HostClick (x : Effect)
  | ExtensionClick (a : A).

Arguments HostClick {A} _.
Arguments ExtensionClick {A} _.

Inductive MenuItem (A : Type) :=
  | Separator
  | MenuEntry (label : jsstring) (click : MenuClick A).

Arguments Separator {A}.
Arguments MenuEntry {A} _ _.

(** [getContextMenu()]: the three fixed items, then one item pushed for each
    extension. *)
Definition getContextMenu {A} (props : ElementsRowProps)
    (contextMenuExtensions : list (ContextMenuExtension A)) : list (MenuItem A) :=
  let items :=
    [ Separator;
      MenuEntry (js "Copy")
        (HostClick (ClipboardWriteText
           (el_name (row_element props) ++ js " id=" ++ el_id (row_element props))));
      MenuEntry (if el_expanded (row_element props) then js "Collapse" else js "Expand")
        (HostClick (OnElementExpanded (row_id props) false)) ] in
  foldl
    (fun items extension =>
       items ++ [MenuEntry (ext_label extension)
                   (ExtensionClick (ext_click extension (row_id props)))])
    items contextMenuExtensions.

(** *** The arrow, the decoration and the line of a row *)

(** [element.children && element.children.length > 0] *)
Definition hasChildren (e : Element) : bool :=
  match el_children e with
  | Some (_ :: _) => true
  | _ => false
  end.

Record Glyph := {
  glyph_name : jsstring;
  glyph_color : jsstring;
}.

(** What decorates a row: what the caller's [decorateRow] returns, or a
    [DecorationImage] with its [src]. *)
Inductive Decoration (D : Type) :=
  | Decorated (d : D)
  | DecorationImage (src : jsstring).

Arguments Decorated {D} _.
Arguments DecorationImage {D} _.

(** The image that the [switch] of [render] picks for a decoration tag. *)
Definition decorationOfTag {D} (tag : jsstring) : option (Decoration D) :=
  if bool_decide (tag = js "litho") then Some (DecorationImage (js "icons/litho-logo.png"))
  else if bool_decide (tag = js "componentkit")
  then Some (DecorationImage (js "icons/componentkit-logo.png"))
  else if bool_decide (tag = js "componentscript")
  then Some (DecorationImage (js "icons/componentscript-logo.png"))
  else if bool_decide (tag = js "accessibility")
  then Some (DecorationImage (js "icons/accessibility.png"))
  else None.

(** What [ElementsRow.render] puts around the texts of a row: the arrow,
    the decoration, and the height of the line when there is one. *)
Record RowChrome (D : Type) := {
  chrome_arrow : option Glyph;
  chrome_decoration : option (Decoration D);
  chrome_line : option Z;
}.

Arguments chrome_arrow {D} _.
Arguments chrome_decoration {D} _.
Arguments chrome_line {D} _.

(** [ElementsRow.render()], the parts other than the texts; [decorateRow]
    is the optional prop of that name. *)
Definition ElementsRowChrome {D} (colors : Colors) (props : ElementsRowProps)
    (state : ElementsRowState) (decorateRow : option (Element -> option D)) : RowChrome D :=
  let element := row_element props in
  {| chrome_arrow :=
       if hasChildren element
       then Some {| glyph_name :=
                      if el_expanded element then js "chevron-down" else js "chevron-right";
                    glyph_color :=
                      if row_selected props || row_focused props
                      then js "white" else light80 colors |}
       else None;
     chrome_decoration :=
       match decorateRow with
       | Some decorate => Decorated <$> decorate element
       | None => decorationOfTag (el_decoration element)
       end;
     chrome_line :=
       if (row_selected props || hovered state) && hasChildren element && el_expanded element
       then Some (ElementsLine (childrenCount props))
       else None |}.

(** ** What one key press may ask for *)

(** The requests that the key handler makes, on the props and the state it
    runs on: the name of the selected element to the clipboard, the
    selection of an identity of [flatKeys] or of the first child of the
    selected element when that one is expanded, and a non-deep expansion
    request for the selected identity. *)
Inductive Request (props : ElementsProps) (state : ElementsState) : Effect -> Prop :=
  | request_copy sel el :
      selected props = Some sel -> elements props !! sel = Some el ->
      Request props state (ClipboardWriteText (el_name el))
  | request_row k :
      k ∈ flatKeys state ->
      Request props state (OnElementSelected (Some k))
  | request_child sel el c cs :
      selected props = Some sel -> elements props !! sel = Some el ->
      el_children el = Some (c :: cs) -> el_expanded el = true ->
      Request props state (OnElementSelected (Some c))
  | request_toggle sel :
      selected props = Some sel ->
      Request props state (OnElementExpanded sel false).

(** The copy shortcut: [meta] on macOS, [ctrl] elsewhere. *)
Definition copyModifier (platform : jsstring) (e : KeyboardEvent) : bool :=
  (metaKey e && bool_decide (platform = js "darwin"))
  || (ctrlKey e && negb (bool_decide (platform = js "darwin"))).

(** ** More examples *)

(** A colour table. *)
Definition exampleColors : Colors :=
  {| macOSTitleBarIconSelected := js "#4d84f5";
     purpleLight := js "#ded4ee";
     light02 := js "#f6f7f9";
     white := js "#ffffff";
     grapeDark3 := js "#5c35a1";
     light80 := js "#303846" |}.

(** The state of the component that shows the tree of the specification. *)
Definition exampleState : ElementsState := projection exampleRows.

(** The rows of [A] and of [B] in the flattened example. *)
Definition rowA : FlatElement := rowOf (js "A") (node "A" true ["B"; "C"]) 1.
Definition rowB : FlatElement := rowOf (js "B") (node "B" true ["D"]) 2.
Definition rowD : FlatElement := rowOf (js "D") (node "D" false []) 3.

(** ** Facts about the walk *)

Lemma descends_spec e :
  descends e = true ↔ childrenOf e ≠ [] ∧ el_expanded e = true.
Proof.
  unfold descends, childrenOf. destruct (el_children e) as [[|c cs]|]; simpl;
    split; try tauto; try (intros [? ?]; congruence); try done.
Qed.

Lemma pushAll_nil st : pushAll st [] = st.
Proof. destruct st. unfold pushAll; simpl. by rewrite !app_nil_r. Qed.

Lemma pushAll_one st k e lv : pushAll st [rowOf k e lv] = push st k e lv.
Proof. reflexivity. Qed.

Lemma pushAll_app st rows rows' :
  pushAll (pushAll st rows) rows' = pushAll st (rows ++ rows').
Proof.
  unfold pushAll, maxLevel; simpl.
  by rewrite fmap_app, !app_assoc, foldl_app.
Qed.

Lemma pushAll_cons st k e lv rows :
  pushAll (push st k e lv) rows = pushAll st (rowOf k e lv :: rows).
Proof. by rewrite <- pushAll_one, pushAll_app. Qed.

Lemma forOf_mono {A S} (f g : A -> S -> option S) l :
  (∀ x s s', f x s = Some s' -> g x s = Some s') ->
  ∀ s s', forOf f l s = Some s' -> forOf g l s = Some s'.
Proof.
  intros Hfg. induction l as [|x l IH]; simpl; intros s s' H; [done|].
  destruct (f x s) as [s1|] eqn:E; [|done].
  rewrite (Hfg _ _ _ E). by apply IH.
Qed.

(** More fuel never changes a result. *)
Lemma seed_mono els fuel :
  ∀ fuel' k lv st st', (fuel <= fuel')%nat ->
    seed fuel els k lv st = Some st' -> seed fuel' els k lv st = Some st'.
Proof.
  induction fuel as [|fuel IH]; intros fuel' k lv st st' Hle H; [done|].
  destruct fuel' as [|fuel']; [lia|]. simpl in *.
  destruct (els !! k) as [e|]; [|done].
  destruct (descends e); [|done].
  eapply forOf_mono; [|exact H].
  intros c s s'. apply IH. lia.
Qed.

(** Whatever [seed] returns is the state extended by a pre-order walk. *)
Lemma seed_sound els fuel :
  ∀ k lv st st', seed fuel els k lv st = Some st' ->
    ∃ rows, Preorder els k lv rows ∧ st' = pushAll st rows.
Proof.
  induction fuel as [|fuel IH]; intros k lv st st' H; [done|].
  simpl in H. destruct (els !! k) as [e|] eqn:Ek.
  - destruct (descends e) eqn:Ed.
    + apply descends_spec in Ed as [Hc He].
      assert (∀ cs s s', forOf (fun c => seed fuel els c (lv + 1)) cs s = Some s' ->
                ∃ rows, PreorderAll els cs (lv + 1) rows ∧ s' = pushAll s rows) as Hall.
      { induction cs as [|c cs IHcs]; simpl; intros s s' Hs.
        - exists []. split; [constructor|]. injection Hs as <-. by rewrite pushAll_nil.
        - destruct (seed fuel els c (lv + 1) s) as [s1|] eqn:E1; [|done].
          apply IH in E1 as (rows1 & Hp1 & ->).
          apply IHcs in Hs as (rows2 & Hp2 & ->).
          exists (rows1 ++ rows2). split; [by constructor|]. apply pushAll_app. }
      apply Hall in H as (rows & Hp & ->).
      exists (rowOf k e lv :: rows). split; [by eapply pre_descend|].
      apply pushAll_cons.
    + exists [rowOf k e lv]. split.
      * apply pre_stop; [done|]. rewrite <- descends_spec. congruence.
      * injection H as <-. by rewrite pushAll_one.
  - exists []. split; [by constructor|]. injection H as <-. by rewrite pushAll_nil.
Qed.

(** Every pre-order walk is returned by [seed], given enough fuel. *)
Lemma seed_complete els k lv rows :
  Preorder els k lv rows ->
  ∃ fuel, ∀ st, seed fuel els k lv st = Some (pushAll st rows).
Proof.
  intros H.
  induction H using Preorder_mut with
    (P0 := fun cs lv rows _ =>
       ∃ fuel, ∀ st, forOf (fun c => seed fuel els c lv) cs st = Some (pushAll st rows)).
  - exists 1%nat. intros st. simpl. rewrite e. by rewrite pushAll_nil.
  - exists 1%nat. intros st. simpl. rewrite e0.
    destruct (descends e) eqn:Ed; [by apply descends_spec in Ed|].
    by rewrite pushAll_one.
  - destruct IHPreorder as [fuel Hf]. exists (S fuel). intros st. simpl. rewrite e0.
    assert (descends e = true) as -> by by apply descends_spec.
    rewrite Hf. by rewrite pushAll_cons.
  - exists 0%nat. intros st. simpl. by rewrite pushAll_nil.
  - destruct IHPreorder as [f1 H1]. destruct IHPreorder0 as [f2 H2].
    exists (f1 `max` f2)%nat. intros st. simpl.
    rewrite (seed_mono els f1 (f1 `max` f2)%nat c lv st _ ltac:(lia) (H1 st)).
    rewrite <- pushAll_app.
    eapply forOf_mono; [|apply H2].
    intros x s s'. apply seed_mono. lia.
Qed.

(** The pre-order walk from a node is unique. *)
Lemma Preorder_unique els k lv rows rows' :
  Preorder els k lv rows -> Preorder els k lv rows' -> rows = rows'.
Proof.
  intros [f1 H1]%seed_complete [f2 H2]%seed_complete.
  pose proof (seed_mono els f1 (f1 `max` f2)%nat k lv initialState _ ltac:(lia) (H1 _)) as E1.
  pose proof (seed_mono els f2 (f1 `max` f2)%nat k lv initialState _ ltac:(lia) (H2 _)) as E2.
  rewrite E1 in E2. injection E2 as _ E _. exact E.
Qed.

(** ** The shape of a pre-order walk *)

Lemma app_cons_split {A} (xs ys pre post : list A) (c : A) :
  xs ++ ys = pre ++ c :: post ->
  (∃ post1, xs = pre ++ c :: post1 ∧ post = post1 ++ ys)
  ∨ (∃ pre2, pre = xs ++ pre2 ∧ ys = pre2 ++ c :: post).
Proof.
  revert pre. induction xs as [|x xs IH]; intros pre H; simpl in *.
  - right. by exists pre.
  - destruct pre as [|y pre]; simpl in *.
    + injection H as -> <-. left. by exists xs.
    + injection H as -> H. apply IH in H as [(post1 & -> & ->)|(pre2 & -> & ->)].
      * left. by exists post1.
      * right. by exists pre2.
Qed.

(** Levels in a walk: all rows are at the start level or below it, the first
    row is the start node at the start level, all later rows are deeper. *)
Lemma Preorder_levels els k lv rows :
  Preorder els k lv rows ->
  Forall (fun r => lv <= level r) rows
  ∧ ∀ r rest, rows = r :: rest ->
      level r = lv ∧ key r = k ∧ els !! k = Some (element r)
      ∧ Forall (fun r' => lv < level r') rest.
Proof.
  intros H.
  induction H using Preorder_mut with
    (P0 := fun cs lv rows _ =>
       Forall (fun r => lv <= level r) rows
       ∧ ∀ r rest, rows = r :: rest -> level r = lv ∧ key r ∈ cs).
  - split; [constructor|]. intros r rest [=].
  - split; [repeat constructor; simpl; lia|].
    intros r rest [= <- <-]. simpl. repeat split; done.
  - destruct IHPreorder as [Hall _]. split.
    + constructor; [simpl; lia|]. eapply Forall_impl; [exact Hall|]. simpl. intros; lia.
    + intros r rest [= <- <-]. simpl. repeat split; try done.
      eapply Forall_impl; [exact Hall|]. simpl. intros; lia.
  - split; [constructor|]. intros r rest [=].
  - destruct IHPreorder as [Ha Hh]. destruct IHPreorder0 as [Ha' Hh'].
    split; [by apply Forall_app|].
    intros r rest E. destruct rows as [|r1 rows]; simpl in E.
    + destruct (Hh' _ _ E) as [? ?]. split; [done|]. by apply list_elem_of_further.
    + injection E as -> <-. destruct (Hh _ _ eq_refl) as (? & <- & _). split; [done|].
      apply list_elem_of_here.
Qed.

Lemma PreorderAll_levels els cs lv rows :
  PreorderAll els cs lv rows ->
  Forall (fun r => lv <= level r) rows ∧ closes lv rows.
Proof.
  induction 1 as [|c cs lv rows rows' H1 H2 [IHa IHc]].
  - split; constructor.
  - apply Preorder_levels in H1 as [Ha Hh]. split; [by apply Forall_app|].
    destruct rows as [|r rows]; simpl; [done|].
    destruct (Hh _ _ eq_refl) as [-> _]. lia.
Qed.

Lemma closes_app lv lv' rows rows' :
  closes lv rows -> closes lv' rows' -> lv' <= lv -> closes lv (rows ++ rows').
Proof.
  destruct rows as [|r rows]; simpl; [|done].
  destruct rows' as [|r' rows']; simpl; [done|lia].
Qed.

(** Each row of a walk starts the walk of its own node. *)
Lemma Preorder_subtree els k lv rows :
  Preorder els k lv rows ->
  ∀ pre p post, rows = pre ++ p :: post ->
    ∃ sub post', post = sub ++ post'
      ∧ closes (level p) post'
      ∧ Preorder els (key p) (level p) (p :: sub).
Proof.
  intros H.
  induction H using Preorder_mut with
    (P0 := fun cs lv rows _ =>
       ∀ pre p post, rows = pre ++ p :: post ->
         ∃ sub post', post = sub ++ post'
           ∧ closes (level p) post'
           ∧ Preorder els (key p) (level p) (p :: sub)).
  - intros pre p post E. by destruct pre.
  - intros pre p post E. destruct pre as [|? [|? ?]]; try done.
    injection E as <- <-. exists [], []. repeat split; simpl; try done.
    by apply pre_stop.
  - intros pre q post E. destruct pre as [|r0 pre]; simpl in E.
    + injection E as <- <-. exists rows, []. rewrite app_nil_r.
      repeat split; simpl; try done. by apply pre_descend.
    + injection E as _ E. by apply IHPreorder in E.
  - intros pre p post E. by destruct pre.
  - intros pre q post E.
    apply app_cons_split in E as [(post1 & E & ->)|(pre2 & -> & E)].
    + pose proof (Preorder_levels _ _ _ _ H) as [Ha _].
      destruct (IHPreorder _ _ _ E) as (sub & post' & -> & Hc & Hp).
      exists sub, (post' ++ rows'). rewrite app_assoc. repeat split; try done.
      apply PreorderAll_levels in p as [_ Hc'].
      eapply closes_app; [done..|].
      subst rows. rewrite Forall_app, Forall_cons in Ha. lia.
    + by apply IHPreorder0 in E.
Qed.

Lemma Preorder_thenChildren els k lv rows :
  Preorder els k lv rows -> rowsThenChildren els rows.
Proof.
  intros H pre p post E.
  destruct (Preorder_subtree _ _ _ _ H _ _ _ E) as (sub & post' & -> & Hc & Hp).
  exists sub, post'. repeat split; try done.
  - apply Preorder_levels in Hp as [_ Hh]. by destruct (Hh _ _ eq_refl) as (_ & _ & _ & ?).
  - inversion Hp as [|? ? e He Hn|? ? e ? He Hc' Hx Hall]; subst; simpl.
    + destruct (descends e) eqn:Ed; [|done]. by apply descends_spec in Ed.
    + assert (descends e = true) as -> by by apply descends_spec. done.
Qed.

Lemma Preorder_parents els k lv rows :
  Preorder els k lv rows -> rowsHaveParents rows.
Proof.
  intros H. unfold rowsHaveParents.
  induction H using Preorder_mut with
    (P0 := fun cs lv rows _ =>
       ∀ pre c post, rows = pre ++ c :: post ->
         (level c = lv ∧ key c ∈ cs)
         ∨ ∃ pre' p mid, pre = pre' ++ p :: mid
             ∧ level c = level p + 1
             ∧ el_expanded (element p) = true
             ∧ key c ∈ childrenOf (element p)
             ∧ Forall (fun r => level p < level r) mid).
  - intros pre c post E. by destruct pre.
  - intros pre c post E Hne. destruct pre as [|? [|? ?]]; done.
  - intros pre c post E Hne. destruct pre as [|r0 pre]; [done|].
    simpl in E. injection E as <- E.
    destruct (IHPreorder _ _ _ E) as [[Hl Hk]|(pre' & q & mid & -> & ?)].
    + exists [], (rowOf k e lv), pre. simpl. repeat split; try done.
      apply PreorderAll_levels in p as [Ha _]. subst rows.
      apply Forall_app in Ha as [Ha _].
      eapply Forall_impl; [exact Ha|]. simpl. intros; lia.
    + exists (rowOf k e lv :: pre'), q, mid. by split.
  - intros pre c post E. by destruct pre.
  - intros pre q post E.
    apply app_cons_split in E as [(post1 & E & ->)|(pre2 & -> & E)].
    + destruct pre as [|r0 pre].
      * left. apply Preorder_levels in H as [_ Hh].
        destruct (Hh _ _ E) as (? & -> & _). split; [done|]. apply list_elem_of_here.
      * right. by apply (IHPreorder _ _ _ E).
    + destruct (IHPreorder0 _ _ _ E) as [[Hl Hk]|(pre' & q' & mid & -> & ?)].
      * left. split; [done|]. by apply list_elem_of_further.
      * right. exists (rows ++ pre'), q', mid. by rewrite app_assoc.
Qed.

(** The rows that [setProps] returns, with or without a root. *)
Lemma setProps_thenChildren fuel props st :
  setProps fuel props = Some st ->
  rowsThenChildren (elements props) (flatElements st).
Proof.
  unfold setProps. destruct (root props) as [r|].
  - intros (rows & Hp & ->)%seed_sound. simpl. by eapply Preorder_thenChildren.
  - intros [= <-] pre p post E. by destruct pre.
Qed.

(** ** Facts about the keyboard handler *)

Lemma indexOfFrom_notin l x k : x ∉ l -> indexOfFrom l x k = -1.
Proof.
  revert k. induction l as [|y l IH]; intros k Hx; simpl; [done|].
  apply not_elem_of_cons in Hx as [Hne Hx].
  destruct (decide (y = x)); [congruence|]. by apply IH.
Qed.

Lemma indexOfFrom_first l x k i :
  firstAt l i x -> indexOfFrom l x k = k + Z.of_nat i.
Proof.
  revert k i. induction l as [|y l IH]; intros k i [Hi Hx]; [done|].
  simpl. destruct i as [|i]; simpl in *.
  - injection Hi as ->. destruct (decide (x = x)); [lia|done].
  - apply not_elem_of_cons in Hx as [Hne Hx].
    destruct (decide (y = x)); [congruence|].
    rewrite (IH (k + 1) i); [lia|done].
Qed.

Lemma indexOf_first l x i : firstAt l i x -> indexOf l x = Z.of_nat i.
Proof. intros H. unfold indexOf. by rewrite (indexOfFrom_first _ _ _ _ H). Qed.

Lemma firstAt_exists l x : x ∈ l -> ∃ i, firstAt l i x.
Proof.
  intros (l1 & l2 & -> & Hx)%list_elem_of_split_l.
  exists (length l1). split.
  - by rewrite list_lookup_middle.
  - by rewrite take_app_length.
Qed.

Lemma indexOf_negative l x : indexOf l x < 0 ↔ x ∉ l.
Proof.
  split.
  - intros Hneg Hin. apply firstAt_exists in Hin as [i Hi].
    rewrite (indexOf_first _ _ _ Hi) in Hneg. lia.
  - intros Hx. unfold indexOf. rewrite indexOfFrom_notin; [lia|done].
Qed.

Lemma at_nat {A} (l : list A) (i : nat) : at_ l (Z.of_nat i) = l !! i.
Proof.
  unfold at_. destruct (Z.ltb_spec (Z.of_nat i) 0); [lia|]. by rewrite Nat2Z.id.
Qed.

Lemma isKey_of e a b : ev_key e = js a -> isKey e b = bool_decide (js a = js b).
Proof. intros H. unfold isKey. by rewrite H. Qed.

(** Evaluates the comparisons of [e.key], once it is known, with the key
    names of the handler. *)
Ltac eval_keys Hk :=
  unfold isKey; rewrite Hk;
  repeat match goal with
    | |- context [bool_decide (js ?a = js ?b)] =>
        let v := eval vm_compute in (bool_decide (js a = js b)) in
        change (bool_decide (js a = js b)) with v
    end;
  cbn [when andb].

(** Passes the three guards of the handler: a selection, its index in
    [flatKeys], its element in the store. *)
Ltac pass_guards Hsel Hi Hel :=
  unfold onKeyDown; rewrite Hsel, (indexOf_first _ _ _ Hi), Hel;
  match goal with
  | |- context [Z.of_nat ?i <? 0] =>
      replace (Z.of_nat i <? 0) with false by (symmetry; apply Z.ltb_ge; lia)
  end.

Lemma onKeyDown_ArrowUp platform e props st sel el i :
  selected props = Some sel ->
  firstAt (flatKeys st) i sel ->
  elements props !! sel = Some el ->
  ev_key e = js "ArrowUp" ->
  onKeyDown platform e props st =
    match i with
    | O => Completed []
    | S j => Completed [PreventDefault; OnElementSelected (flatKeys st !! j)]
    end.
Proof.
  intros Hsel Hi Hel Hk. pass_guards Hsel Hi Hel. eval_keys Hk.
  destruct Hi as [Hi _]. apply lookup_lt_Some in Hi.
  destruct i as [|j]; [done|].
  replace (Z.of_nat (S j) =? 0) with false by (symmetry; apply Z.eqb_neq; lia).
  replace (Z.of_nat (length (flatKeys st)) =? 1) with false
    by (symmetry; apply Z.eqb_neq; lia).
  replace (Z.of_nat (S j) - 1) with (Z.of_nat j) by lia.
  by rewrite at_nat.
Qed.

Lemma onKeyDown_ArrowDown platform e props st sel el i :
  selected props = Some sel ->
  firstAt (flatKeys st) i sel ->
  elements props !! sel = Some el ->
  ev_key e = js "ArrowDown" ->
  onKeyDown platform e props st =
    if bool_decide (S i = length (flatKeys st)) then Completed []
    else Completed [PreventDefault; OnElementSelected (flatKeys st !! S i)].
Proof.
  intros Hsel Hi Hel Hk. pass_guards Hsel Hi Hel. eval_keys Hk.
  destruct Hi as [Hi _]. apply lookup_lt_Some in Hi.
  case_bool_decide as Hlast.
  - replace (Z.of_nat i =? Z.of_nat (length (flatKeys st)) - 1) with true
      by (symmetry; apply Z.eqb_eq; lia).
    done.
  - replace (Z.of_nat i =? Z.of_nat (length (flatKeys st)) - 1) with false
      by (symmetry; apply Z.eqb_neq; lia).
    replace (Z.of_nat i + 1) with (Z.of_nat (S i)) by lia.
    by rewrite at_nat.
Qed.

(** Every row of a walk holds the element that the store has for its key. *)
Lemma Preorder_row_in_store els k lv rows r :
  Preorder els k lv rows -> r ∈ rows -> els !! key r = Some (element r).
Proof.
  intros H (pre & post & ->)%list_elem_of_split.
  destruct (Preorder_subtree _ _ _ _ H _ _ _ eq_refl) as (sub & post' & _ & _ & Hp).
  apply Preorder_levels in Hp as [_ Hh].
  by destruct (Hh _ _ eq_refl) as (_ & _ & ? & _).
Qed.

(** What [setProps] returns is the projection of rows that are all in the
    store. *)
Lemma setProps_rows fuel props st :
  setProps fuel props = Some st ->
  ∃ rows, st = projection rows
    ∧ ∀ r, r ∈ rows -> elements props !! key r = Some (element r).
Proof.
  unfold setProps. destruct (root props) as [r|].
  - intros (rows & Hp & ->)%seed_sound. exists rows. split; [done|].
    intros r' Hr'. by eapply Preorder_row_in_store.
  - intros [= <-]. exists []. split; [done|]. intros r Hr. by apply elem_of_nil in Hr.
Qed.

Lemma setProps_key_in_store fuel props st k :
  setProps fuel props = Some st -> k ∈ flatKeys st ->
  is_Some (elements props !! k).
Proof.
  intros (rows & -> & Hin)%setProps_rows. simpl.
  intros (r & -> & Hr)%list_elem_of_fmap. rewrite (Hin _ Hr). by eexists.
Qed.

(** ** Claim C4 *)

(** C4. In a flattened sequence in which the selected identity is at index
    [i] (its first index), ArrowUp selects the row at index [i - 1] when
    [i > 0] and does nothing when [i = 0]; ArrowDown selects the row at
    index [i + 1] when [i] is below the last index and does nothing at the
    last index; with fewer than two rows both do nothing. *)
Theorem C4_move_previous_next platform e props fuel st sel i :
  setProps fuel props = Some st ->
  selected props = Some sel ->
  firstAt (flatKeys st) i sel ->
  (ev_key e = js "ArrowUp" ->
     ((0 < i)%nat ->
        ∃ k, flatKeys st !! (i - 1)%nat = Some k
          ∧ onKeyDown platform e props st
            = Completed [PreventDefault; OnElementSelected (Some k)])
     ∧ (i = 0%nat -> onKeyDown platform e props st = Completed []))
  ∧ (ev_key e = js "ArrowDown" ->
     ((i + 1 < length (flatKeys st))%nat ->
        ∃ k, flatKeys st !! (i + 1)%nat = Some k
          ∧ onKeyDown platform e props st
            = Completed [PreventDefault; OnElementSelected (Some k)])
     ∧ ((i + 1)%nat = length (flatKeys st) ->
        onKeyDown platform e props st = Completed []))
  ∧ ((length (flatKeys st) < 2)%nat ->
     ev_key e = js "ArrowUp" ∨ ev_key e = js "ArrowDown" ->
     onKeyDown platform e props st = Completed []).
Proof.
  intros Hset Hsel Hi.
  assert (is_Some (elements props !! sel)) as [el Hel].
  { eapply setProps_key_in_store; [done|]. destruct Hi as [Hi _].
    by eapply list_elem_of_lookup_2. }
  pose proof Hi as [Hlt%lookup_lt_Some _].
  split; [|split].
  - intros Hk. rewrite (onKeyDown_ArrowUp _ _ _ _ _ _ _ Hsel Hi Hel Hk). split.
    + intros Hpos. destruct i as [|j]; [lia|].
      replace (S j - 1)%nat with j by lia.
      destruct (lookup_lt_is_Some_2 (flatKeys st) j ltac:(lia)) as [k Hj].
      exists k. by rewrite Hj.
    + by intros ->.
  - intros Hk. rewrite (onKeyDown_ArrowDown _ _ _ _ _ _ _ Hsel Hi Hel Hk).
    replace (i + 1)%nat with (S i) by lia. split.
    + intros Hnext. rewrite bool_decide_eq_false_2 by lia.
      destruct (lookup_lt_is_Some_2 (flatKeys st) (S i) ltac:(lia)) as [k Hj].
      exists k. by rewrite Hj.
    + intros Hlast. by rewrite bool_decide_eq_true_2.
  - intros Hshort [Hk|Hk].
    + rewrite (onKeyDown_ArrowUp _ _ _ _ _ _ _ Hsel Hi Hel Hk).
      destruct i; [done|lia].
    + rewrite (onKeyDown_ArrowDown _ _ _ _ _ _ _ Hsel Hi Hel Hk).
      rewrite bool_decide_eq_true_2; [done|lia].
Qed.

(** ** Claim C9 *)

Lemma onKeyDown_guarded platform e props st :
  selected props = None
  ∨ (∃ sel, selected props = Some sel
       ∧ (sel ∉ flatKeys st ∨ elements props !! sel = None)) ->
  onKeyDown platform e props st = Completed [].
Proof.
  intros [Hnone|(sel & Hsel & H)]; unfold onKeyDown.
  - by rewrite Hnone.
  - rewrite Hsel. destruct (Z.ltb_spec (indexOf (flatKeys st) sel) 0) as [Hneg|Hpos]; [done|].
    destruct H as [Hnotin|Habsent].
    + apply indexOf_negative in Hnotin. lia.
    + by rewrite Habsent.
Qed.

(** The guards. Whatever the key, the handler emits nothing (no selection,
    no expansion request, no clipboard write, not even [preventDefault])
    when no identity is selected, when the selected identity has no index
    in [flatKeys], or when the read [props.elements[selected]] finds
    nothing: the selected identity is neither a property of the store
    object itself nor one that it inherits. *)
Theorem guards_make_noop platform e props st proto own :
  elements props = propertiesOf proto own ->
  selected props = None
  ∨ (∃ sel, selected props = Some sel
       ∧ (sel ∉ flatKeys st ∨ (own !! sel = None ∧ proto !! sel = None))) ->
  onKeyDown platform e props st = Completed [].
Proof.
  intros Hels H. apply onKeyDown_guarded.
  destruct H as [Hnone|(sel & Hsel & [Hnotin|[Hown Hproto]])]; [by left|right..].
  - exists sel. split; [done|by left].
  - exists sel. split; [done|]. right. rewrite Hels. by apply lookup_union_None.
Qed.

(** C9 fails where the selected identity has no node in the store but
    names a property that the store object inherits. With an object literal
    without properties as the store and [toString] as the root and the
    selection, the flattened sequence holds [toString], the read
    [props.elements[selected]] yields the method [toString], and the guards
    let the handler through: the copy shortcut writes the name of the
    method to the clipboard, and ArrowRight throws a [TypeError], because
    the method has no [children]. *)
Theorem C9_inherited_name_passes_the_guards :
  (∅ : gmap ElementID Element) !! js "toString" = None
  ∧ selected emptyObjectProps = Some (js "toString")
  ∧ setProps 1 emptyObjectProps
    = Some (projection [rowOf (js "toString") (functionAsElement "toString") 1])
  ∧ onKeyDown (js "linux") ctrlC emptyObjectProps
      (projection [rowOf (js "toString") (functionAsElement "toString") 1])
    = Completed [PreventDefault; ClipboardWriteText (js "toString")]
  ∧ onKeyDown (js "linux") (press "ArrowRight") emptyObjectProps
      (projection [rowOf (js "toString") (functionAsElement "toString") 1])
    = TypeError [].
Proof. repeat split; by vm_compute. Qed.

(** ** ArrowLeft and ArrowRight *)

(** The backward scan finds the nearest row of the target level, or none. *)
Lemma parentScan_spec fe fk target i :
  (i < length fe)%nat ->
  (∃ j p, nearestAtLevel fe i target j p
          ∧ parentScan fe fk target i = Some (fk !! j))
  ∨ (noneAtLevel fe i target ∧ parentScan fe fk target i = Some None).
Proof.
  induction i as [|i IH]; intros Hlt.
  - destruct (lookup_lt_is_Some_2 fe 0 Hlt) as [r Hr]. simpl. rewrite Hr.
    destruct (Z.eqb_spec (level r) target) as [Heq|Hne].
    + left. exists 0%nat, r. split; [|done]. repeat split; try done. intros; lia.
    + right. split; [|done]. intros j r' Hj Hr'.
      assert (j = 0%nat) as -> by lia. congruence.
  - destruct (lookup_lt_is_Some_2 fe (S i) Hlt) as [r Hr]. simpl. rewrite Hr.
    destruct (Z.eqb_spec (level r) target) as [Heq|Hne].
    + left. exists (S i), r. split; [|done]. repeat split; try done. intros; lia.
    + destruct (IH ltac:(lia)) as [(j & p & (Hj & Hp & Hl & Hbetween) & Hscan)|[Hnone Hscan]].
      * left. exists j, p. split; [|done]. repeat split; try done; [lia|].
        intros j' r' Hj' Hr'. destruct (decide (j' = S i)) as [->|].
        -- congruence.
        -- apply (Hbetween j' r'); [lia|done].
      * right. split; [|done]. intros j r' Hj Hr'.
        destruct (decide (j = S i)) as [->|]; [congruence|].
        apply (Hnone j r'); [lia|done].
Qed.

Lemma onKeyDown_ArrowLeft_expanded platform e props st sel el i :
  selected props = Some sel ->
  firstAt (flatKeys st) i sel ->
  elements props !! sel = Some el ->
  ev_key e = js "ArrowLeft" ->
  el_expanded el = true ->
  onKeyDown platform e props st
  = Completed [PreventDefault; OnElementExpanded sel false].
Proof.
  intros Hsel Hi Hel Hk Hex. pass_guards Hsel Hi Hel. eval_keys Hk.
  by rewrite Hex.
Qed.

Lemma onKeyDown_ArrowLeft_collapsed platform e props st sel el i r :
  selected props = Some sel ->
  firstAt (flatKeys st) i sel ->
  elements props !! sel = Some el ->
  ev_key e = js "ArrowLeft" ->
  el_expanded el = false ->
  flatKeys st = key <$> flatElements st ->
  flatElements st !! i = Some r ->
  (∃ j p, nearestAtLevel (flatElements st) i (level r - 1) j p
     ∧ onKeyDown platform e props st
       = Completed (PreventDefault ::
           if truthy (key p) then [OnElementSelected (Some (key p))] else []))
  ∨ (noneAtLevel (flatElements st) i (level r - 1)
     ∧ onKeyDown platform e props st = Completed [PreventDefault]).
Proof.
  intros Hsel Hi Hel Hk Hex Hpar Hr. pass_guards Hsel Hi Hel. eval_keys Hk.
  rewrite Hex, at_nat, Hr, Nat2Z.id.
  destruct (parentScan_spec (flatElements st) (flatKeys st) (level r - 1) i)
    as [(j & p & Hnear & ->)|[Hnone ->]].
  - by eapply lookup_lt_Some.
  - left. exists j, p. split; [done|].
    destruct Hnear as (_ & Hp & _). rewrite Hpar, list_lookup_fmap, Hp. simpl.
    by destruct (truthy (key p)).
  - by right.
Qed.

Lemma onKeyDown_ArrowRight platform e props st sel el i :
  selected props = Some sel ->
  firstAt (flatKeys st) i sel ->
  elements props !! sel = Some el ->
  ev_key e = js "ArrowRight" ->
  onKeyDown platform e props st
  = match el_children el with
    | None => TypeError []
    | Some [] => Completed []
    | Some (c :: _) =>
        if el_expanded el
        then Completed [PreventDefault; OnElementSelected (Some c)]
        else Completed [PreventDefault; OnElementExpanded sel false]
    end.
Proof.
  intros Hsel Hi Hel Hk. pass_guards Hsel Hi Hel. eval_keys Hk.
  destruct (el_children el) as [[|c cs]|]; try done.
  simpl. by destruct (el_expanded el).
Qed.

(** ** Claim C5 *)

(** C5. ArrowLeft on a collapsed row scans backward for the nearest row one
    level up and selects it only if its identity is truthy. In the store
    whose root has the empty string as identity and one child [b], with [b]
    selected, the scan finds the root row (index 0, level 1, one less than
    the level of [b]) and the handler selects nothing. *)
Theorem C5_parent_with_empty_identity platform :
  setProps 2 (propsOf emptyIdElements (Some "") (Some "b")) = Some (projection emptyIdRows)
  ∧ firstAt (flatKeys (projection emptyIdRows)) 1 (js "b")
  ∧ nearestAtLevel emptyIdRows 1 (2 - 1) 0 (rowOf (js "") (node "" true ["b"]) 1)
  ∧ onKeyDown platform (press "ArrowLeft")
      (propsOf emptyIdElements (Some "") (Some "b")) (projection emptyIdRows)
    = Completed [PreventDefault].
Proof.
  split; [by vm_compute|]. split; [|split].
  - split; [done|]. cbn. apply not_elem_of_cons. split; [done|apply not_elem_of_nil].
  - split; [lia|]. split; [done|]. split; [done|].
    intros j' r Hj. assert (j' = 1%nat) as -> by lia. by intros [= <-].
  - by vm_compute.
Qed.

(** ** Claim C6 *)

(** C6. ArrowRight reads [selectedElement.children.length] without the
    test against [null] that [seed] and [ElementsRow.render] make: on a
    selected element whose [children] is [null] the handler throws a
    [TypeError]. *)
Theorem C6_null_children_throw platform :
  setProps 1 (propsOf nullChildrenElements (Some "a") (Some "a"))
    = Some (projection [rowOf (js "a") (childless "a") 1])
  ∧ onKeyDown platform (press "ArrowRight")
      (propsOf nullChildrenElements (Some "a") (Some "a"))
      (projection [rowOf (js "a") (childless "a") 1])
    = TypeError [].
Proof. split; by vm_compute. Qed.

(** The rows and the keys that [setProps] returns go together. *)
Lemma setProps_parallel fuel props st :
  setProps fuel props = Some st -> flatKeys st = key <$> flatElements st.
Proof. by intros (rows & -> & _)%setProps_rows. Qed.

(** ArrowLeft, in a flattened sequence in which the selected identity is at
    index [i]: on an expanded node it requests [setExpanded(selected,
    false)] and selects nothing; on a collapsed node it looks for the
    nearest row at or before [i] that is one level up, selects it if there is
    one and its identity is not the empty string, and selects nothing
    otherwise. *)
Theorem ArrowLeft_collapse_or_parent platform e props fuel st sel i el :
  setProps fuel props = Some st ->
  selected props = Some sel ->
  firstAt (flatKeys st) i sel ->
  elements props !! sel = Some el ->
  ev_key e = js "ArrowLeft" ->
  (el_expanded el = true ->
     onKeyDown platform e props st
     = Completed [PreventDefault; OnElementExpanded sel false])
  ∧ (el_expanded el = false ->
     ∃ r, flatElements st !! i = Some r
       ∧ ((∃ j p, nearestAtLevel (flatElements st) i (level r - 1) j p
             ∧ onKeyDown platform e props st
               = Completed (PreventDefault ::
                   if truthy (key p) then [OnElementSelected (Some (key p))] else []))
          ∨ (noneAtLevel (flatElements st) i (level r - 1)
             ∧ onKeyDown platform e props st = Completed [PreventDefault]))).
Proof.
  intros Hset Hsel Hi Hel Hk. split.
  - intros Hex. by eapply onKeyDown_ArrowLeft_expanded.
  - intros Hex. pose proof (setProps_parallel _ _ _ Hset) as Hpar.
    assert (is_Some (flatElements st !! i)) as [r Hr].
    { destruct Hi as [Hi _]. rewrite Hpar, list_lookup_fmap in Hi.
      destruct (flatElements st !! i); [by eexists|done]. }
    exists r. split; [done|]. by eapply onKeyDown_ArrowLeft_collapsed.
Qed.

(** ArrowRight, in a flattened sequence in which the selected identity is
    at index [i], on a node whose [children] is an array: with one or more
    children it selects the first child when the node is expanded and
    requests [setExpanded(selected, false)] when it is not; without children
    it does nothing. *)
Theorem ArrowRight_child_or_expand platform e props fuel st sel i el children :
  setProps fuel props = Some st ->
  selected props = Some sel ->
  firstAt (flatKeys st) i sel ->
  elements props !! sel = Some el ->
  ev_key e = js "ArrowRight" ->
  el_children el = Some children ->
  onKeyDown platform e props st
  = match children with
    | [] => Completed []
    | c :: _ =>
        if el_expanded el
        then Completed [PreventDefault; OnElementSelected (Some c)]
        else Completed [PreventDefault; OnElementExpanded sel false]
    end.
Proof.
  intros _ Hsel Hi Hel Hk Hc.
  rewrite (onKeyDown_ArrowRight _ _ _ _ _ _ _ Hsel Hi Hel Hk). by rewrite Hc.
Qed.

(** ** Claim C3 *)

(** Identities that the read [props.elements[key]] does not find are
    skipped. Without a root [setProps] returns the empty projection
    ([flatElements] and [flatKeys] empty, [maxDepth] 0). An identity that is
    neither a property of the store object itself nor one that it inherits
    gives the empty projection as a root, leaves the state as it is when
    [seed] visits it, has the empty walk, and the loop over a list of
    children that holds it does what it does over the list without it. *)
Theorem unread_identities_are_skipped proto own :
  (∀ fuel props, root props = None -> setProps fuel props = Some initialState)
  ∧ ∀ k, own !! k = None -> proto !! k = None ->
      (∀ fuel props, root props = Some k -> elements props = propertiesOf proto own ->
         setProps (S fuel) props = Some initialState)
      ∧ (∀ fuel lv st, seed (S fuel) (propertiesOf proto own) k lv st = Some st)
      ∧ (∀ lv rows, Preorder (propertiesOf proto own) k lv rows -> rows = [])
      ∧ (∀ fuel lv cs1 cs2 st,
           forOf (fun c => seed (S fuel) (propertiesOf proto own) c lv) (cs1 ++ k :: cs2) st
           = forOf (fun c => seed (S fuel) (propertiesOf proto own) c lv) (cs1 ++ cs2) st).
Proof.
  split.
  { intros fuel props Hr. unfold setProps. by rewrite Hr. }
  intros k Hown Hproto.
  assert (propertiesOf proto own !! k = None) as Hk
    by (apply lookup_union_None; by split).
  split; [|split; [|split]].
  - intros fuel props Hr Hels. unfold setProps. rewrite Hr, Hels. simpl. by rewrite Hk.
  - intros fuel lv st. simpl. by rewrite Hk.
  - intros lv rows H. inversion H; congruence.
  - intros fuel lv cs1 cs2 st. revert st.
    induction cs1 as [|c cs1 IH]; intros st.
    + cbn [app forOf]. cbn [seed]. by rewrite Hk.
    + cbn [app forOf].
      destruct (seed (S fuel) (propertiesOf proto own) c lv st); [apply IH|done].
Qed.

(** C3 fails where an identity without a node in the store names a property
    that the store object inherits. With an object literal without
    properties as the store and [toString] as the root, the read
    [props.elements[key]] yields the method [toString], and [setProps]
    returns a projection of one row, not the empty one. As a child of the
    node [A], [toString] gets a row as well. *)
Theorem C3_inherited_name_gets_a_row :
  (∅ : gmap ElementID Element) !! js "toString" = None
  ∧ setProps 1 emptyObjectProps
    = Some (projection [rowOf (js "toString") (functionAsElement "toString") 1])
  ∧ toStringChild !! js "toString" = None
  ∧ setProps 2 (propsOf (propertiesOf objectPrototype toStringChild) (Some "A") None)
    = Some (projection [rowOf (js "A") (node "A" true ["toString"]) 1;
                        rowOf (js "toString") (functionAsElement "toString") 2]).
Proof. repeat split; by vm_compute. Qed.

(** ** Claim C7 *)

Lemma countLoop_spec fe lvl fuel :
  ∀ i c, (length fe <= i + fuel)%nat ->
    ∃ sub post, drop i fe = sub ++ post
      ∧ Forall (fun r => lvl < level r) sub
      ∧ closes lvl post
      ∧ countLoop fe lvl fuel i c = c + Z.of_nat (length sub).
Proof.
  induction fuel as [|fuel IH]; intros i c Hlen.
  - exists [], []. rewrite drop_ge by lia. simpl. repeat split; try done. lia.
  - simpl. destruct (fe !! i) as [child|] eqn:Ei.
    + rewrite (drop_S _ _ _ Ei).
      destruct (Z.leb_spec (level child) lvl) as [Hle|Hgt].
      * exists [], (child :: drop (S i) fe). simpl. repeat split; try done. lia.
      * destruct (IH (S i) (c + 1) ltac:(lia)) as (sub & post & E & Hsub & Hpost & ->).
        exists (child :: sub), post. rewrite E. simpl. repeat split; try done.
        -- by constructor.
        -- lia.
    + apply lookup_ge_None in Ei. exists [], []. rewrite drop_ge by lia.
      simpl. repeat split; try done. lia.
Qed.

Lemma buildRow_childrenCount props st row index :
  childrenCountSpec (flatElements st) index (level row)
    (childrenCount (buildRow props st row index)).
Proof.
  simpl.
  destruct (countLoop_spec (flatElements st) (level row) (length (flatElements st))
              (S index) 0 ltac:(lia)) as (sub & post & E & Hsub & Hpost & ->).
  exists sub, post. repeat split; try done.
Qed.

(** The deeper rows that follow a row are determined by the sequence. *)
Lemma deeper_prefix_unique lvl (sub1 sub2 post1 post2 : FlatElements) :
  sub1 ++ post1 = sub2 ++ post2 ->
  Forall (fun r => lvl < level r) sub1 -> Forall (fun r => lvl < level r) sub2 ->
  closes lvl post1 -> closes lvl post2 ->
  sub1 = sub2.
Proof.
  revert sub2. induction sub1 as [|r sub1 IH]; intros sub2 E H1 H2 C1 C2.
  - destruct sub2 as [|r' sub2]; [done|]. simpl in E. subst post1.
    apply Forall_cons in H2 as [? _]. simpl in C1. lia.
  - destruct sub2 as [|r' sub2]; simpl in E.
    + subst post2. apply Forall_cons in H1 as [? _]. simpl in C2. lia.
    + injection E as <- E. apply Forall_cons in H1 as [_ H1].
      apply Forall_cons in H2 as [_ H2]. f_equal. by apply IH.
Qed.

(** C7. For the row at index [index] of any sequence, the [childrenCount]
    that [buildRow] computes is the number of rows after it that are deeper
    than it, up to the first later row that is not deeper. In a flattened
    sequence this is the size of the visible subtree below the row: the
    count of the rows that follow the row's own in the walk of its node; it
    is 0 for the row of a node that is collapsed or has no children. *)
Theorem C7_childrenCount props st row index :
  flatElements st !! index = Some row ->
  childrenCountSpec (flatElements st) index (level row)
    (childrenCount (buildRow props st row index))
  ∧ ∀ fuel, setProps fuel props = Some st ->
      (∃ sub, Preorder (elements props) (key row) (level row) (row :: sub)
         ∧ childrenCount (buildRow props st row index) = Z.of_nat (length sub))
      ∧ (descends (element row) = false ->
         childrenCount (buildRow props st row index) = 0).
Proof.
  intros Hrow. split; [apply buildRow_childrenCount|].
  intros fuel Hset.
  destruct (setProps_thenChildren _ _ _ Hset (take index (flatElements st)) row (drop (S index) (flatElements st)))
    as (sub & post' & E & Hc & Hdeep & Hp & Hd).
  { by rewrite take_drop_middle. }
  destruct (buildRow_childrenCount props st row index)
    as (sub' & post & E' & Hdeep' & Hc' & ->).
  rewrite E in E'.
  pose proof (deeper_prefix_unique _ _ _ _ _ E' Hdeep Hdeep' Hc Hc') as <-.
  split.
  - by exists sub.
  - intros Hnd. rewrite Hnd in Hd. by rewrite Hd.
Qed.

(** ** Walks of tree-shaped stores *)

Lemma forOf_is_Some {A S} (f : A -> S -> option S) l :
  (∀ x, x ∈ l -> ∀ s, is_Some (f x s)) -> ∀ s, is_Some (forOf f l s).
Proof.
  induction l as [|x l IH]; intros Hf s; simpl; [by eexists|].
  destruct (Hf x (list_elem_of_here _ _) s) as [s' ->].
  apply IH. intros y Hy. apply Hf. by apply list_elem_of_further.
Qed.

Section TreeShaped.

Variable els : gmap ElementID Element.
Variable k0 : ElementID.

Local Abbreviation edge := (walkEdge els).
Local Abbreviation reach := (rtc (walkEdge els)).

(** The three parts of [treeShaped els k0]. *)
Hypothesis acyclic : ∀ p, reach k0 p -> ¬ tc edge p p.
Hypothesis one_parent :
  ∀ p1 p2 c, reach k0 p1 -> reach k0 p2 -> edge p1 c -> edge p2 c -> p1 = p2.
Hypothesis children_once :
  ∀ p e, reach k0 p -> els !! p = Some e -> descends e = true -> NoDup (childrenOf e).

(** Without a cycle on its way the walk returns: the nodes above the
    current one are all different, so there are no more of them than the
    store has nodes. *)
Lemma seed_terminates :
  ∀ n (above : gset ElementID) k lv st,
    reach k0 k ->
    (∀ a, a ∈ above -> tc edge a k) ->
    (size (dom els ∖ above) < n)%nat ->
    is_Some (seed n els k lv st).
Proof.
  induction n as [|n IH]; intros above k lv st Hk Habove Hsize; [lia|].
  simpl. destruct (els !! k) as [e|] eqn:Ek; [|by eexists].
  destruct (descends e) eqn:Ed; [|by eexists].
  apply forOf_is_Some. intros c Hc s.
  assert (edge k c) as Hedge by by exists e.
  apply (IH ({[k]} ∪ above)).
  - eapply rtc_r; [exact Hk|exact Hedge].
  - intros a [->%elem_of_singleton|Ha]%elem_of_union.
    + by apply tc_once.
    + eapply tc_r; [by apply Habove|done].
  - assert (k ∉ above) as Hfresh.
    { intros Ha. by apply (acyclic k Hk), Habove. }
    assert (k ∈ dom els) as Hdom by (apply elem_of_dom; by eexists).
    assert (dom els ∖ ({[k]} ∪ above) ⊂ dom els ∖ above) as Hsub.
    { split.
      - intros x [Hx Hnot]%elem_of_difference. apply elem_of_difference.
        split; [done|]. intros Hx'. apply Hnot, elem_of_union. by right.
      - intros Hsup. specialize (Hsup k).
        rewrite !elem_of_difference, elem_of_union, elem_of_singleton in Hsup.
        destruct Hsup as [_ Hsup]; [done|]. apply Hsup. by left. }
    apply subset_size in Hsub. lia.
Qed.

(** The keys of a walk are on its way. *)
Lemma Preorder_keys_reach k lv rows :
  Preorder els k lv rows ->
  ∀ r, r ∈ rows -> reach k (key r).
Proof.
  intros H.
  induction H using Preorder_mut with
    (P0 := fun cs lv rows _ =>
       ∀ r, r ∈ rows -> ∃ c, c ∈ cs ∧ reach c (key r)).
  - intros r Hr. by apply elem_of_nil in Hr.
  - intros r ->%list_elem_of_singleton. apply rtc_refl.
  - intros r [->|Hr]%elem_of_cons; [apply rtc_refl|].
    destruct (IHPreorder _ Hr) as (c & Hc & Hreach).
    eapply rtc_l; [|exact Hreach]. exists e. split; [done|]. split; [|done].
    by apply descends_spec.
  - intros r Hr. by apply elem_of_nil in Hr.
  - intros r [Hr|Hr]%elem_of_app.
    + exists c. split; [apply list_elem_of_here|]. by apply IHPreorder.
    + destruct (IHPreorder0 _ Hr) as (c' & Hc' & Hreach).
      exists c'. split; [by apply list_elem_of_further|done].
Qed.

Lemma PreorderAll_keys_reach cs lv rows :
  PreorderAll els cs lv rows ->
  ∀ r, r ∈ rows -> ∃ c, c ∈ cs ∧ reach c (key r).
Proof.
  induction 1 as [|c cs lv rows1 rows2 H1 H2 IH2]; intros r Hr.
  - by apply elem_of_nil in Hr.
  - apply elem_of_app in Hr as [Hr|Hr].
    + exists c. split; [apply list_elem_of_here|]. by eapply Preorder_keys_reach.
    + destruct (IH2 _ Hr) as (c' & ? & ?). exists c'.
      split; [by apply list_elem_of_further|done].
Qed.

(** Where every node has one parent, two nodes above the same node are one
    above the other. *)
Lemma ancestors_linear a b x :
  reach k0 a -> reach k0 b -> reach a x -> reach b x ->
  reach a b ∨ reach b a.
Proof.
  intros Ha Hb Hax. revert b Hb.
  refine (rtc_ind_r (fun x => ∀ b, reach k0 b -> reach b x -> reach a b ∨ reach b a)
            a _ _ x Hax).
  - intros b Hb Hba. by right.
  - clear x Hax. intros y x Hay Hyx IH b Hb Hbx.
    apply rtc_inv_r in Hbx as [->|(y' & Hby' & Hy'x)].
    + left. eapply rtc_r; [exact Hay|exact Hyx].
    + assert (y = y') as <-.
      { apply (one_parent y y' x); try done.
        - eapply rtc_trans; [exact Ha|exact Hay].
        - eapply rtc_trans; [exact Hb|exact Hby']. }
      by apply IH.
Qed.

(** Two different children of a node on the way are not one above the
    other: their parent would be on a cycle. *)
Lemma siblings_apart q a b :
  reach k0 q -> edge q a -> edge q b -> a ≠ b -> ¬ reach a b.
Proof.
  intros Hq Hqa Hqb Hab Hreach.
  apply rtc_inv_r in Hreach as [->|(y & Hay & Hyb)]; [done|].
  assert (y = q) as ->.
  { apply (one_parent y q b); try done.
    eapply rtc_trans; [|exact Hay]. eapply rtc_r; [exact Hq|exact Hqa]. }
  apply (acyclic q Hq). eapply tc_rtc_r; [apply tc_once, Hqa|done].
Qed.

(** On a tree-shaped store no key is met twice. *)
Lemma Preorder_NoDup k lv rows :
  Preorder els k lv rows ->
  reach k0 k ->
  NoDup (key <$> rows).
Proof.
  intros H.
  induction H using Preorder_mut with
    (P0 := fun cs lv rows _ =>
       ∀ p, reach k0 p -> (∀ c, c ∈ cs -> edge p c) ->
         NoDup cs -> NoDup (key <$> rows)).
  - intros _. constructor.
  - intros _. simpl. apply NoDup_singleton.
  - intros Hk. simpl.
    assert (descends e = true) as Hd by by apply descends_spec.
    assert (∀ c, c ∈ childrenOf e -> edge k c) as Hedges.
    { intros c Hc. by exists e. }
    apply NoDup_cons. split.
    + intros (r & Hkr & Hr)%list_elem_of_fmap.
      destruct (PreorderAll_keys_reach _ _ _ p _ Hr) as (c & Hc & Hreach).
      apply (acyclic k Hk). eapply tc_rtc_r; [apply tc_once, (Hedges c Hc)|].
      by rewrite Hkr.
    + by apply (IHPreorder k Hk Hedges), (children_once k e).
  - intros p _ _ _. constructor.
  - intros q Hq Hedges Hnd. apply NoDup_cons in Hnd as [Hc Hnd].
    assert (edge q c) as Hqc by apply Hedges, list_elem_of_here.
    assert (reach k0 c) as Hk0c by (eapply rtc_r; [exact Hq|exact Hqc]).
    rewrite fmap_app. apply NoDup_app. split; [by apply IHPreorder|]. split.
    + intros x (r & -> & Hr)%list_elem_of_fmap (r' & Hx & Hr')%list_elem_of_fmap.
      pose proof (Preorder_keys_reach _ _ _ H _ Hr) as Hcr.
      destruct (PreorderAll_keys_reach _ _ _ p _ Hr') as (c' & Hc' & Hc'r).
      rewrite <- Hx in Hc'r.
      assert (edge q c') as Hqc' by by apply Hedges, list_elem_of_further.
      assert (reach k0 c') as Hk0c' by (eapply rtc_r; [exact Hq|exact Hqc']).
      assert (c ≠ c') as Hne by (intros ->; done).
      destruct (ancestors_linear c c' (key r) Hk0c Hk0c' Hcr Hc'r).
      * by apply (siblings_apart q c c').
      * by apply (siblings_apart q c' c).
    + apply (IHPreorder0 q Hq); [|done].
      intros c' Hc'. by apply Hedges, list_elem_of_further.
Qed.

End TreeShaped.

(** ** Claim C1 *)

(** On the store with the cycle [A -> [A]] no amount of fuel makes [seed]
    return. *)
Lemma cyclic_seed_None fuel :
  ∀ lv st, seed fuel cyclicElements (js "A") lv st = None.
Proof.
  induction fuel as [|fuel IH]; intros lv st; [done|].
  cbn [seed]. unfold cyclicElements at 1. rewrite lookup_insert_eq.
  cbn. by rewrite IH.
Qed.

(** C1, as the code has it. For every table of nodes and root identity the
    walk of [setProps] returns a state exactly when there is a pre-order
    walk from the root at level 1 (one row per visited node, the children of
    a node walked in their stored order, one level down, if and only if the
    node has one or more children and its expansion flag is true), and that
    state is the projection made of those rows. Hence, in the rows it
    returns, the first row is the root at level 1, every other row is one
    level below its parent row, and the rows of a node's children follow it
    at once precisely when it is expanded and has children. Where no node on
    the way of the walk leads back to itself through expanded children, the
    walk does return. *)
Theorem C1_flatten_is_preorder (props : ElementsProps) (r : ElementID) :
  root props = Some r ->
  (∀ st, (∃ fuel, setProps fuel props = Some st)
         ↔ ∃ rows, Preorder (elements props) r 1 rows ∧ st = projection rows)
  ∧ (∀ fuel st, setProps fuel props = Some st ->
       flatKeys st = key <$> flatElements st
       ∧ maxDepth st = maxLevel 0 (flatElements st)
       ∧ (∀ p rest, flatElements st = p :: rest -> key p = r ∧ level p = 1)
       ∧ rowsHaveParents (flatElements st)
       ∧ rowsThenChildren (elements props) (flatElements st))
  ∧ ((∀ p, walkReach (elements props) r p -> ¬ tc (walkEdge (elements props)) p p) ->
     ∃ fuel rows, Preorder (elements props) r 1 rows
       ∧ setProps fuel props = Some (projection rows)).
Proof.
  intros Hr. unfold setProps. rewrite Hr. split; [|split].
  - intros st. split.
    + intros [fuel H]. by apply seed_sound in H.
    + intros (rows & [fuel H]%seed_complete & ->). exists fuel. apply H.
  - intros fuel st (rows & Hp & ->)%seed_sound. simpl.
    split; [done|]. split; [done|]. split; [|split].
    + intros p rest ->. apply Preorder_levels in Hp as [_ Hh].
      by destruct (Hh _ _ eq_refl) as (? & ? & _).
    + by eapply Preorder_parents.
    + by eapply Preorder_thenChildren.
  - intros Hacyc.
    destruct (seed_terminates (elements props) r Hacyc
                (S (size (dom (elements props)))) ∅ r 1 initialState) as [st Hst].
    + apply rtc_refl.
    + intros a Ha. by apply elem_of_empty in Ha.
    + apply Nat.lt_succ_r, subseteq_size.
      by intros x [Hx _]%elem_of_difference.
    + pose proof Hst as (rows & Hp & ->)%seed_sound.
      by exists (S (size (dom (elements props)))), rows.
Qed.

(** C1, as stated, fails on a store with a cycle: with [A -> [A]], [A]
    expanded, [setProps] returns for no amount of fuel, so it produces no
    rows at all, and there is no pre-order walk from [A] that it could
    produce. *)
Lemma C1_cycle_produces_nothing :
  root (propsOf cyclicElements (Some "A") None) = Some (js "A")
  ∧ (∀ fuel, setProps fuel (propsOf cyclicElements (Some "A") None) = None)
  ∧ ¬ ∃ rows, Preorder cyclicElements (js "A") 1 rows.
Proof.
  split; [reflexivity|]. split.
  - intros fuel. apply cyclic_seed_None.
  - intros [rows [fuel H]%seed_complete].
    specialize (H initialState). by rewrite cyclic_seed_None in H.
Qed.

(** ** Claim C2 *)

(** C2, as the code has it: the walk has no set of visited nodes. On a
    store whose part walked from the root is a tree (no cycle, no identity
    referenced as a child twice) the walk returns, and every identity is at
    most once in the flattened sequence. *)
Theorem C2_tree_walk_returns_without_repeats props r :
  root props = Some r ->
  treeShaped (elements props) r ->
  (∃ fuel st, setProps fuel props = Some st)
  ∧ ∀ fuel st, setProps fuel props = Some st -> NoDup (flatKeys st).
Proof.
  intros Hr Htree. unfold setProps. rewrite Hr. split.
  - exists (S (size (dom (elements props)))).
    destruct Htree as (Hacyc & _).
    destruct (seed_terminates (elements props) r Hacyc
                (S (size (dom (elements props)))) ∅ r 1 initialState) as [st Hst].
    + apply rtc_refl.
    + intros a Ha. by apply elem_of_empty in Ha.
    + apply Nat.lt_succ_r, subseteq_size.
      by intros x [Hx _]%elem_of_difference.
    + by exists st.
  - intros fuel st (rows & Hp & ->)%seed_sound. simpl.
    destruct Htree as (Hacyc & Huniq & Honce).
    by apply (Preorder_NoDup (elements props) r Hacyc Huniq Honce r 1 rows Hp), rtc_refl.
Qed.

(** C2, as stated, fails: with a cycle ([A -> [A]]) the walk returns for no
    amount of fuel, and with a duplicate child reference ([A -> [B, B]]) it
    returns a sequence that holds [B] twice. *)
Lemma C2_cycle_and_duplicate :
  (∀ fuel, setProps fuel (propsOf cyclicElements (Some "A") None) = None)
  ∧ (∃ st, setProps 2 (propsOf duplicateElements (Some "A") None) = Some st
        ∧ flatKeys st = [js "A"; js "B"; js "B"]
        ∧ ¬ NoDup (flatKeys st)).
Proof.
  split.
  - intros fuel. unfold setProps, propsOf; simpl.
    generalize initialState, 1.
    induction fuel as [|fuel IH]; intros st lv; [done|].
    cbn [seed]. unfold cyclicElements at 1. rewrite lookup_insert_eq.
    cbn. by rewrite IH.
  - eexists. split; [by vm_compute|]. split; [done|].
    intros Hnd. apply NoDup_cons in Hnd as [_ Hnd].
    apply NoDup_cons in Hnd as [Hb _]. apply Hb, list_elem_of_here.
Qed.

(** ** Facts about strings *)

Lemma startsWith_spec s t : startsWith s t = true ↔ ∃ post, s = t ++ post.
Proof.
  revert s. induction t as [|b t IH]; intros s; simpl.
  - split; [by exists s|done].
  - destruct s as [|a s]; simpl.
    + split; [done|]. by intros [post ?].
    + rewrite andb_true_iff, bool_decide_eq_true, IH. split.
      * intros [-> [post ->]]. by exists post.
      * intros [post [= -> ->]]. split; [done|]. by exists post.
Qed.

(** [indexOf] returns the first index at which [t] starts, or [-1] when
    there is none. *)
Lemma stringIndexOfFrom_spec s t k :
  (stringIndexOfFrom s t k = -1
   ∧ ∀ i, (i <= length s)%nat -> startsWith (drop i s) t = false)
  ∨ (∃ i, stringIndexOfFrom s t k = k + Z.of_nat i
       ∧ (i <= length s)%nat
       ∧ startsWith (drop i s) t = true
       ∧ ∀ j, (j < i)%nat -> startsWith (drop j s) t = false).
Proof.
  revert k. induction s as [|a s IH]; intros k.
  - simpl. destruct (startsWith [] t) eqn:E.
    + right. exists 0%nat. simpl. repeat split; try done; try lia; intros; lia.
    + left. split; [done|]. intros i Hi. by rewrite drop_nil.
  - cbn [stringIndexOfFrom]. destruct (startsWith (a :: s) t) eqn:E.
    + right. exists 0%nat. simpl. repeat split; try done; try lia; intros; lia.
    + destruct (IH (k + 1)) as [[Hm Hnone]|(i & Hi & Hle & Hst & Hfirst)].
      * left. split; [done|]. intros [|i] Hi; [done|]. simpl in *. apply Hnone. lia.
      * right. exists (S i). simpl. repeat split; try done; try lia.
        intros [|j] Hj; [done|]. simpl. apply Hfirst. lia.
Qed.

Lemma includes_spec s t :
  includes s t = true ->
  ∃ i, stringIndexOf s t = Z.of_nat i
    ∧ (∃ post, drop i s = t ++ post)
    ∧ ∀ j, (j < i)%nat -> ¬ ∃ post, drop j s = t ++ post.
Proof.
  unfold includes, stringIndexOf. intros H.
  destruct (stringIndexOfFrom_spec s t 0) as [[Hm _]|(i & Hi & Hle & Hst & Hfirst)].
  - by rewrite Hm in H.
  - exists i. split; [lia|]. split; [by apply startsWith_spec|].
    intros j Hj Hocc%startsWith_spec. by rewrite (Hfirst j Hj) in Hocc.
Qed.

(** Rewrites the two bounds of an unfolded [substring] to [n] and [m]. *)
Ltac substring_bounds n m :=
  unfold substringFrom, substring;
  match goal with
  | |- take (Z.to_nat ?a) (drop (Z.to_nat ?b) _) = _ =>
      replace (Z.to_nat a) with n by lia; replace (Z.to_nat b) with m by lia
  end.

(** The three substrings that [PartialHighlight] takes, for an index and an
    end in range. *)
Lemma substring_prefix s (i : nat) :
  substring s 0 (Z.of_nat i) = take i s.
Proof.
  destruct (decide (i <= length s)%nat).
  - substring_bounds i 0%nat. by rewrite drop_0.
  - substring_bounds (length s) 0%nat. by rewrite drop_0, !take_ge by lia.
Qed.

Lemma substring_middle s (i n : nat) :
  substring s (Z.of_nat i) (Z.of_nat i + Z.of_nat n) = take n (drop i s).
Proof.
  destruct (decide (i + n <= length s)%nat).
  - by substring_bounds n i.
  - destruct (decide (i <= length s)%nat).
    + substring_bounds (length s - i)%nat i.
      rewrite !take_ge; [done| |]; rewrite length_drop; lia.
    + substring_bounds 0%nat (length s).
      rewrite drop_all, drop_ge by lia. by destruct n.
Qed.

Lemma substringFrom_suffix s (i : nat) :
  substringFrom s (Z.of_nat i) = drop i s.
Proof.
  destruct (decide (i <= length s)%nat).
  - substring_bounds (length s - i)%nat i.
    rewrite take_ge; [done|]. rewrite length_drop. lia.
  - substring_bounds 0%nat (length s).
    by rewrite drop_all, drop_ge by lia.
Qed.

(** ** Facts about [PartialHighlight] *)

Section HighlightFacts.

Variable toLowerCase : jsstring -> jsstring.

Lemma PartialHighlight_empty_query content :
  PartialHighlight toLowerCase (Some (js "")) content = Plain content.
Proof. unfold PartialHighlight. simpl. by rewrite andb_false_r. Qed.

(** What is rendered when the lower-cased content includes the lower-cased
    query: the content cut at the index found in the lower-cased content. *)
Lemma PartialHighlight_marked h content i :
  truthy content = true -> truthy h = true ->
  includes (toLowerCase content) (toLowerCase h) = true ->
  stringIndexOf (toLowerCase content) (toLowerCase h) = Z.of_nat i ->
  PartialHighlight toLowerCase (Some h) content
  = Marked (take i content) (take (length h) (drop i content))
      (drop (i + length h) content).
Proof.
  intros Hc Hh Hinc Hi. unfold PartialHighlight. rewrite Hc, Hh, Hinc, Hi. simpl.
  rewrite substring_prefix, substring_middle, <- Nat2Z.inj_add, substringFrom_suffix.
  done.
Qed.

(** The segments are the content, cut in three or whole. *)
Lemma PartialHighlight_segments q content :
  match PartialHighlight toLowerCase q content with
  | Plain c => c = content
  | Marked before match_ after => before ++ match_ ++ after = content
  end.
Proof.
  destruct q as [h|]; [|done]. unfold PartialHighlight.
  destruct (truthy content) eqn:Hc; [|done].
  destruct (truthy h) eqn:Hh; [|done].
  destruct (includes (toLowerCase content) (toLowerCase h)) eqn:Hinc; [|done].
  destruct (includes_spec _ _ Hinc) as (i & Hi & _). cbn [andb]. rewrite Hi.
  rewrite substring_prefix, substring_middle, <- Nat2Z.inj_add, substringFrom_suffix.
  rewrite <- drop_drop, take_drop. apply take_drop.
Qed.

(** An attribute named [id] or [addr] is rendered with the query of the
    row, any other attribute with the empty query, which marks nothing. *)
Lemma ElementsRowAttribute_id_addr name value q :
  name = js "id" ∨ name = js "addr" ->
  ElementsRowAttribute toLowerCase name value q
  = {| view_key := name; view_value := PartialHighlight toLowerCase q value |}.
Proof.
  intros [H|H]; unfold ElementsRowAttribute; f_equal.
  - by rewrite (bool_decide_eq_true_2 _ H).
  - rewrite (bool_decide_eq_true_2 (name = js "addr") H). by rewrite orb_true_r.
Qed.

Lemma ElementsRowAttribute_other name value q :
  name ≠ js "id" -> name ≠ js "addr" ->
  ElementsRowAttribute toLowerCase name value q
  = {| view_key := name; view_value := Plain value |}.
Proof.
  intros H1 H2. unfold ElementsRowAttribute. f_equal.
  rewrite (bool_decide_eq_false_2 _ H1), (bool_decide_eq_false_2 _ H2). simpl.
  apply PartialHighlight_empty_query.
Qed.

(** A row without a query, or with the empty one, has nothing marked. *)
Lemma ElementsRow_plain rowProps :
  matchingSearchQuery rowProps = None ∨ matchingSearchQuery rowProps = Some [] ->
  ElementsRow toLowerCase rowProps = plainView (row_element rowProps).
Proof.
  intros Hq. unfold ElementsRow, plainView.
  assert (∀ c, PartialHighlight toLowerCase (matchingSearchQuery rowProps) c = Plain c)
    as Hplain.
  { intros c. destruct Hq as [Hq|Hq]; rewrite Hq; [done|apply PartialHighlight_empty_query]. }
  f_equal; [apply Hplain|].
  destruct (el_attributes (row_element rowProps)) as [attrs|]; [|done]. simpl.
  apply list_fmap_ext. intros i a _.
  destruct (decide (attr_name a = js "id" ∨ attr_name a = js "addr")) as [H|H].
  - rewrite (ElementsRowAttribute_id_addr _ _ _ H). by rewrite Hplain.
  - apply ElementsRowAttribute_other; tauto.
Qed.

End HighlightFacts.

(** ** Claim C10 *)

(** An occurrence, letter case aside, is an occurrence in the strings
    mapped to lower case unit by unit. *)
Lemma occursAt_mapped f s t i :
  t ≠ [] ->
  occursAt f s t i ↔ ∃ post, drop i (f <$> s) = (f <$> t) ++ post.
Proof.
  intros Hne. assert (0 < length t)%nat by (destruct t; [done|simpl; lia]).
  unfold occursAt. split.
  - intros [Hlen Heq]. exists (drop (length t) (drop i (f <$> s))).
    rewrite <- Heq, fmap_take, fmap_drop. by rewrite take_drop.
  - intros [post Hpost].
    assert (length (drop i (f <$> s)) = length ((f <$> t) ++ post)) as Hlen
      by by rewrite Hpost.
    rewrite length_drop, length_app, !length_fmap in Hlen.
    split; [lia|].
    rewrite fmap_take, fmap_drop, Hpost.
    apply take_app_length'. by rewrite length_fmap.
Qed.

(** Where [toLowerCase] maps the content and the query code unit by code
    unit, [PartialHighlight] cuts the content at the first occurrence of
    the query, letter case aside, and renders it whole when there is
    none. *)
Lemma PartialHighlight_unitwise_cases toLowerCase f h content :
  toLowerCase content = f <$> content ->
  toLowerCase h = f <$> h ->
  h ≠ [] ->
  (∃ i, firstOccurrence f content h i
     ∧ PartialHighlight toLowerCase (Some h) content
       = Marked (take i content) (take (length h) (drop i content))
           (drop (i + length h) content))
  ∨ ((¬ ∃ i, occursAt f content h i)
     ∧ PartialHighlight toLowerCase (Some h) content = Plain content).
Proof.
  intros Hc Hh Hne.
  destruct (includes (toLowerCase content) (toLowerCase h)) eqn:Hinc.
  - left. destruct (includes_spec _ _ Hinc) as (i & Hi & Hat & Hfirst).
    rewrite Hc, Hh in Hat, Hfirst.
    assert (occursAt f content h i) as Hocc by by apply occursAt_mapped.
    exists i. split; [split; [done|]|].
    + intros j Hj Hj'. by apply (Hfirst j Hj), occursAt_mapped.
    + apply PartialHighlight_marked; [| |done|done].
      * destruct Hocc as [Hlen _]. destruct content, h; simpl in *; try done; lia.
      * by destruct h.
  - right. split.
    + intros [i0 Hocc].
      rewrite Hc, Hh in Hinc. unfold includes, stringIndexOf in Hinc.
      destruct (stringIndexOfFrom_spec (f <$> content) (f <$> h) 0)
        as [[_ Hnone]|(i & Hi & _)].
      * pose proof Hocc as [Hlen _].
        apply occursAt_mapped, startsWith_spec in Hocc; [|done].
        rewrite Hnone in Hocc; [done|]. rewrite length_fmap. lia.
      * rewrite Hi in Hinc. apply negb_false_iff, Z.eqb_eq in Hinc. lia.
    + unfold PartialHighlight. rewrite Hinc. by rewrite andb_false_r.
Qed.

(** What holds of [PartialHighlight] for every [toLowerCase], and what
    holds besides where [toLowerCase] maps the content and the query code
    unit by code unit (as it does on ASCII text): the segments concatenate
    to the content; the match has the length of the query, is the query
    letter case aside, and starts at the first such occurrence; a content
    without an occurrence is rendered whole. *)
Lemma PartialHighlight_unitwise toLowerCase f h content :
  toLowerCase content = f <$> content ->
  toLowerCase h = f <$> h ->
  h ≠ [] ->
  ((∃ i, occursAt f content h i) ->
     ∃ i, occursAt f content h i
       ∧ (∀ j, (j < i)%nat -> ¬ occursAt f content h j)
       ∧ PartialHighlight toLowerCase (Some h) content
         = Marked (take i content) (take (length h) (drop i content))
             (drop (i + length h) content)
       ∧ take i content ++ take (length h) (drop i content)
           ++ drop (i + length h) content = content
       ∧ length (take (length h) (drop i content)) = length h)
  ∧ ((¬ ∃ i, occursAt f content h i) ->
     PartialHighlight toLowerCase (Some h) content = Plain content).
Proof.
  intros Hc Hh Hne.
  destruct (PartialHighlight_unitwise_cases toLowerCase f h content Hc Hh Hne)
    as [(i & [Hocc Hfirst] & Heq)|[Hnone Heq]].
  - split; [|intros Hn; destruct Hn; by exists i].
    intros _. exists i. split; [done|]. split; [done|]. split; [done|]. split.
    + rewrite <- drop_drop, take_drop. apply take_drop.
    + destruct Hocc as [Hlen _]. rewrite length_take, length_drop. lia.
  - split; [|done]. intros Hex. by destruct Hnone.
Qed.

(** C10. [PartialHighlight] cuts the content at the index that the
    lower-cased query has in the lower-cased content. Lower case can have
    more code units than the text it comes from: U+0130 becomes the two
    code units U+0069 U+0307. For the content [İstanbul] and the query
    [stan] the match is [tanb], one code unit after the occurrence of the
    query; for the content [İx] and the query [x] the match is empty,
    though the query has length 1. *)
Theorem C10_highlight_shifted_by_lower_case :
  PartialHighlight toLowerCaseUnits (Some (js "stan")) (304%N :: js "stanbul")
  = Marked [304%N; 115%N] (js "tanb") (js "ul")
  ∧ PartialHighlight toLowerCaseUnits (Some (js "x")) [304%N; 120%N]
    = Marked [304%N; 120%N] [] [].
Proof. split; by vm_compute. Qed.

(** ** Claim C8 *)

(** Where [toLowerCase] maps the content and the query code unit by code
    unit, what [PartialHighlight] renders is the case-insensitive substring
    highlight of the specification. *)
Lemma PartialHighlight_Highlighted toLowerCase f q content :
  toLowerCase content = f <$> content ->
  (∀ h, q = Some h -> toLowerCase h = f <$> h) ->
  Highlighted f q content (PartialHighlight toLowerCase q content).
Proof.
  intros Hc Hq. destruct q as [h|].
  - destruct (decide (h = [])) as [->|Hne].
    + rewrite (PartialHighlight_empty_query toLowerCase). apply highlighted_none.
      by intros h [= <-] Hne.
    + destruct (PartialHighlight_unitwise_cases toLowerCase f h content Hc (Hq h eq_refl) Hne)
        as [(i & Hfirst & Heq)|[Hnone Heq]]; rewrite Heq.
      * by eapply highlighted_first.
      * apply highlighted_none. by intros h' [= <-] _.
  - apply highlighted_none. by intros h [=].
Qed.

(** The narrowing of the highlight. For a row whose node is in the match
    set of the search results, and where [toLowerCase] maps the name, the
    attribute values and the query code unit by code unit (as it does on
    ASCII text), the row shows the case-insensitive substring highlight of
    the query in the name of the node and in the values of the attributes
    named exactly [id] or [addr], and the values of all other attributes
    plain, whatever they hold. For every [toLowerCase], a query that is
    [null] or empty highlights nothing, and neither does a row whose node
    is not in the match set. *)
Theorem highlight_narrowed_to_name_id_addr toLowerCase f props st row index :
  (∀ sr, searchResults props = Some sr -> key row ∈ matches sr ->
     toLowerCase (el_name (element row)) = f <$> el_name (element row) ->
     (∀ a, a ∈ default [] (el_attributes (element row)) ->
        toLowerCase (attr_value a) = f <$> attr_value a) ->
     (∀ h, query sr = Some h -> toLowerCase h = f <$> h) ->
     NarrowedHighlight f (query sr) (element row)
       (ElementsRow toLowerCase (buildRow props st row index)))
  ∧ (∀ sr, searchResults props = Some sr ->
       query sr = None ∨ query sr = Some [] ->
       ElementsRow toLowerCase (buildRow props st row index) = plainView (element row))
  ∧ (containsKeyInSearchResults (searchResults props) (key row) = false ->
     ElementsRow toLowerCase (buildRow props st row index) = plainView (element row)).
Proof.
  split; [|split].
  - intros sr Hsr Hin Hname Hattrs Hquery.
    unfold NarrowedHighlight, ElementsRow.
    cbn [view_name view_attributes matchingSearchQuery row_element buildRow].
    unfold containsKeyInSearchResults. rewrite Hsr. cbn [mbind option_bind].
    rewrite (bool_decide_eq_true_2 _ Hin). split.
    + by apply PartialHighlight_Highlighted.
    + destruct (el_attributes (element row)) as [attrs|]; [|constructor].
      cbn [default] in *. apply Forall2_fmap_r, Forall_Forall2_diag, Forall_forall.
      intros a Ha. split; [done|].
      destruct (decide (attr_name a = js "id" ∨ attr_name a = js "addr")) as [H|H].
      * rewrite (ElementsRowAttribute_id_addr _ _ _ _ H). cbn [view_value].
        apply PartialHighlight_Highlighted; [by apply Hattrs|done].
      * rewrite ElementsRowAttribute_other by tauto. done.
  - intros sr Hsr Hq.
    apply (ElementsRow_plain toLowerCase (buildRow props st row index)).
    cbn [matchingSearchQuery buildRow]. rewrite Hsr. cbn [mbind option_bind].
    destruct (containsKeyInSearchResults _ _); [done|by left].
  - intros Hno.
    apply (ElementsRow_plain toLowerCase (buildRow props st row index)).
    cbn [matchingSearchQuery buildRow]. rewrite Hno. by left.
Qed.

(** C8 fails where lower case has more code units than the text it comes
    from, for the reason of C10. The element [İstanbul] is in the match set
    of the query [stan]: in its name, and in the value of its attribute
    [id], the row marks [tanb], one code unit after the occurrence of the
    query, where the case-insensitive substring highlight marks [stan]
    (only the attribute [text] is plain, as the narrowing has it). *)
Theorem C8_highlight_beside_the_query :
  js "9" ∈ matches istanbulSearch
  ∧ ElementsRow toLowerCaseUnits
      (buildRow istanbulProps (projection [rowOf (js "9") istanbul 1])
         (rowOf (js "9") istanbul 1) 0)
    = {| view_name := Marked [304%N; 115%N] (js "tanb") (js "ul");
         view_attributes :=
           [ {| view_key := js "id";
                view_value := Marked [304%N; 115%N] (js "tanb") (js "ul") |};
             {| view_key := js "text"; view_value := Plain (js "stan") |} ] |}
  ∧ Highlighted asciiLower (Some (js "stan")) (304%N :: js "stanbul")
      (Marked [304%N] (js "stan") (js "bul"))
  ∧ ¬ NarrowedHighlight asciiLower (query istanbulSearch) istanbul
        (ElementsRow toLowerCaseUnits
           (buildRow istanbulProps (projection [rowOf (js "9") istanbul 1])
              (rowOf (js "9") istanbul 1) 0)).
Proof.
  split; [cbn; by apply elem_of_singleton_2|]. split; [by vm_compute|]. split.
  - apply (highlighted_first asciiLower (Some (js "stan")) (304%N :: js "stanbul")
             (js "stan") 1); [done|done|].
    split; [split; [simpl; lia|done]|].
    intros j Hj [_ Hocc]. assert (j = 0%nat) as -> by lia. by vm_compute in Hocc.
  - intros [Hname _].
    change (view_name _) with (Marked [304%N; 115%N] (js "tanb") (js "ul")) in Hname.
    inversion Hname as [h i Hq Hne [Hocc _] [Hbefore Hmatch Hafter]|].
    injection Hq as <-.
    assert (i = 2%nat) as ->.
    { apply (f_equal length) in Hbefore. rewrite length_take in Hbefore.
      simpl in Hbefore. lia. }
    destruct Hocc as [_ Hocc]. by vm_compute in Hocc.
Qed.

(** ** The examples of the specification *)

(** The tree of the specification flattens to [A], [B], [D], [C] at the
    levels 1, 2, 3, 2. *)
Lemma example_flatten : setProps 3 exampleProps = Some (projection exampleRows).
Proof. by vm_compute. Qed.

(** With [B] selected, move-next selects [D] and move-previous selects
    [A]; go-to-parent on [D] selects [B]; go-to-child on [A] selects [B]. *)
Lemma example_moves platform :
  onKeyDown platform (press "ArrowDown") exampleProps (projection exampleRows)
    = Completed [PreventDefault; OnElementSelected (Some (js "D"))]
  ∧ onKeyDown platform (press "ArrowUp") exampleProps (projection exampleRows)
    = Completed [PreventDefault; OnElementSelected (Some (js "A"))]
  ∧ onKeyDown platform (press "ArrowLeft")
      (propsOf exampleElements (Some "A") (Some "D")) (projection exampleRows)
    = Completed [PreventDefault; OnElementSelected (Some (js "B"))]
  ∧ onKeyDown platform (press "ArrowRight")
      (propsOf exampleElements (Some "A") (Some "A")) (projection exampleRows)
    = Completed [PreventDefault; OnElementSelected (Some (js "B"))].
Proof. repeat split; by vm_compute. Qed.

(** The [childrenCount] of [A], [B], [D], [C]: the three rows after [A]
    are all deeper than [A]. *)
Lemma example_childrenCount :
  childrenCount <$> renderRows exampleProps (projection exampleRows) = [3; 1; 0; 0].
Proof. by vm_compute. Qed.

(** With [B] collapsed, [D] is gone and the [childrenCount] of [A] is 2. *)
Lemma example_collapse :
  let els := <[js "B" := node "B" false ["D"]]> exampleElements in
  ∃ st, setProps 3 (propsOf els (Some "A") None) = Some st
    ∧ flatKeys st = [js "A"; js "B"; js "C"]
    ∧ childrenCount <$> renderRows (propsOf els (Some "A") None) st = [2; 0; 0].
Proof. eexists. split; [by vm_compute|]. split; by vm_compute. Qed.

(** The row of [okButton] for the query [ok]: the name and the values of
    [id] and [addr] are cut around the match, the value of [text] is
    plain. *)
Lemma example_highlight :
  ElementsRow toLowerCaseUnits
    (buildRow okProps (projection [rowOf (js "7") okButton 1]) (rowOf (js "7") okButton 1) 0)
  = {| view_name := Marked (js "") (js "Ok") (js "Button");
       view_attributes :=
         [ {| view_key := js "id"; view_value := Marked (js "") (js "ok") (js "_1") |};
           {| view_key := js "text"; view_value := Plain (js "ok") |};
           {| view_key := js "addr"; view_value := Marked (js "0x") (js "OK") (js "") |} ] |}.
Proof. by vm_compute. Qed.

(** The edges of the walk in the tree of the specification. *)
Lemma example_edges p c :
  walkEdge exampleElements p c ->
  (p = js "A" ∧ (c = js "B" ∨ c = js "C")) ∨ (p = js "B" ∧ c = js "D").
Proof.
  intros (e & He & Hd & Hc). unfold exampleElements in He.
  apply lookup_insert_Some in He as [[<- <-]|[_ He]].
  { left. split; [done|]. cbn in Hc.
    apply elem_of_cons in Hc as [->|Hc]; [by left|].
    apply list_elem_of_singleton in Hc as ->. by right. }
  apply lookup_insert_Some in He as [[<- <-]|[_ He]].
  { right. split; [done|]. cbn in Hc. by apply list_elem_of_singleton in Hc. }
  apply lookup_insert_Some in He as [[<- <-]|[_ He]]; [done|].
  apply lookup_insert_Some in He as [[<- <-]|[_ He]]; [done|].
  by rewrite lookup_empty in He.
Qed.

Lemma example_rank_decreases p c :
  tc (walkEdge exampleElements) p c -> (exampleRank c < exampleRank p)%nat.
Proof.
  induction 1 as [p c Hedge|p q c Hedge _ IH].
  - apply example_edges in Hedge as [[-> [->| ->]]|[-> ->]]; vm_compute; lia.
  - apply example_edges in Hedge as [[-> [->| ->]]|[-> ->]];
      revert IH; vm_compute; lia.
Qed.

Lemma example_treeShaped : treeShaped exampleElements (js "A").
Proof.
  split; [|split].
  - intros p _ Hcycle%example_rank_decreases. lia.
  - intros p1 p2 c _ _ H1%example_edges H2%example_edges.
    destruct H1 as [[-> [->| ->]]|[-> ->]], H2 as [[-> [?|?]]|[-> ?]]; done.
  - intros p e _ He Hd. unfold exampleElements in He.
    apply lookup_insert_Some in He as [[<- <-]|[_ He]].
    { cbn. apply NoDup_cons. split; [|apply NoDup_singleton].
      by intros [=]%list_elem_of_singleton. }
    apply lookup_insert_Some in He as [[<- <-]|[_ He]]; [apply NoDup_singleton|].
    apply lookup_insert_Some in He as [[<- <-]|[_ He]]; [done|].
    apply lookup_insert_Some in He as [[<- <-]|[_ He]]; [done|].
    by rewrite lookup_empty in He.
Qed.

(** ** The theorems at the examples *)

(** C1 at the tree of the specification, which has no cycle. *)
Lemma C1_example_tree :
  root exampleProps = Some (js "A")
  ∧ (∀ p, walkReach (elements exampleProps) (js "A") p ->
       ¬ tc (walkEdge (elements exampleProps)) p p)
  ∧ (∃ rows, Preorder exampleElements (js "A") 1 rows
       ∧ projection exampleRows = projection rows)
  ∧ rowsHaveParents exampleRows
  ∧ rowsThenChildren exampleElements exampleRows
  ∧ ∃ fuel rows, Preorder exampleElements (js "A") 1 rows
      ∧ setProps fuel exampleProps = Some (projection rows).
Proof.
  split; [reflexivity|].
  split; [apply (proj1 example_treeShaped)|].
  destruct (C1_flatten_is_preorder exampleProps (js "A") eq_refl)
    as (Hiff & Hshape & Hreturns).
  split; [|split; [|split]].
  - apply Hiff. exists 3%nat. by vm_compute.
  - destruct (Hshape 3%nat (projection exampleRows)) as (_ & _ & _ & Hpar & _);
      [by vm_compute|exact Hpar].
  - destruct (Hshape 3%nat (projection exampleRows)) as (_ & _ & _ & _ & Hthen);
      [by vm_compute|exact Hthen].
  - apply Hreturns, (proj1 example_treeShaped).
Defined.

(** C2 at the tree of the specification, which is tree-shaped. *)
Lemma C2_example_tree :
  root exampleProps = Some (js "A")
  ∧ treeShaped (elements exampleProps) (js "A")
  ∧ (∃ fuel st, setProps fuel exampleProps = Some st)
  ∧ ∀ fuel st, setProps fuel exampleProps = Some st -> NoDup (flatKeys st).
Proof.
  split; [reflexivity|]. split; [apply example_treeShaped|].
  apply (C2_tree_walk_returns_without_repeats exampleProps (js "A")).
  - reflexivity.
  - apply example_treeShaped.
Defined.

(** [B] is at index 1 of the flattened example. *)
Lemma example_B_at_1 : firstAt (flatKeys (projection exampleRows)) 1 (js "B").
Proof.
  split; [reflexivity|]. cbn. apply not_elem_of_cons. split; [done|apply not_elem_of_nil].
Qed.

(** C4 at the example: with [B] selected, ArrowDown selects the row at
    index 2. *)
Lemma C4_example_moves :
  setProps 3 exampleProps = Some (projection exampleRows)
  ∧ selected exampleProps = Some (js "B")
  ∧ firstAt (flatKeys (projection exampleRows)) 1 (js "B")
  ∧ (∃ k, flatKeys (projection exampleRows) !! 2%nat = Some k
       ∧ onKeyDown (js "linux") (press "ArrowDown") exampleProps (projection exampleRows)
         = Completed [PreventDefault; OnElementSelected (Some k)]).
Proof.
  split; [by vm_compute|]. split; [reflexivity|]. split; [apply example_B_at_1|].
  destruct (C4_move_previous_next (js "linux") (press "ArrowDown") exampleProps 3
              (projection exampleRows) (js "B") 1) as (_ & Hdown & _).
  - by vm_compute.
  - reflexivity.
  - apply example_B_at_1.
  - apply (proj1 (Hdown eq_refl)). vm_compute. lia.
Defined.

(** C7 at the row of [A] in the example. *)
Lemma C7_example_count :
  flatElements (projection exampleRows) !! 0%nat
    = Some (rowOf (js "A") (node "A" true ["B"; "C"]) 1)
  ∧ ∃ sub,
      Preorder exampleElements (js "A") 1 (rowOf (js "A") (node "A" true ["B"; "C"]) 1 :: sub)
      ∧ childrenCount (buildRow exampleProps (projection exampleRows)
                         (rowOf (js "A") (node "A" true ["B"; "C"]) 1) 0)
        = Z.of_nat (length sub).
Proof.
  split; [reflexivity|].
  destruct (C7_childrenCount exampleProps (projection exampleRows)
              (rowOf (js "A") (node "A" true ["B"; "C"]) 1) 0 eq_refl) as [_ H].
  destruct (H 3%nat) as [Hsub _]; [by vm_compute|]. exact Hsub.
Defined.

(** The guards at the tree of the specification in an object literal, with
    the selection [Z], which is neither a node nor an inherited property. *)
Lemma guards_example :
  elements (propsOf exampleObject (Some "A") (Some "Z"))
    = propertiesOf objectPrototype exampleElements
  ∧ exampleElements !! js "Z" = None
  ∧ objectPrototype !! js "Z" = None
  ∧ onKeyDown (js "linux") (press "ArrowUp")
      (propsOf exampleObject (Some "A") (Some "Z")) (projection exampleRows)
    = Completed [].
Proof.
  split; [reflexivity|]. split; [reflexivity|]. split; [reflexivity|].
  apply (guards_make_noop (js "linux") (press "ArrowUp")
           (propsOf exampleObject (Some "A") (Some "Z")) (projection exampleRows)
           objectPrototype exampleElements eq_refl).
  right. exists (js "Z"). split; [reflexivity|]. right. split; reflexivity.
Defined.

(** The identity [Z], which is neither a node of the example nor an
    inherited property, is skipped. *)
Lemma unread_identity_example :
  exampleElements !! js "Z" = None
  ∧ objectPrototype !! js "Z" = None
  ∧ seed 1 exampleObject (js "Z") 2 initialState = Some initialState
  ∧ forOf (fun c => seed 3 exampleObject c 1) [js "Z"; js "A"] initialState
    = forOf (fun c => seed 3 exampleObject c 1) [js "A"] initialState.
Proof.
  split; [reflexivity|]. split; [reflexivity|].
  destruct (unread_identities_are_skipped objectPrototype exampleElements) as [_ H].
  destruct (H (js "Z") eq_refl eq_refl) as (_ & Hseed & _ & Hloop).
  split.
  - apply (Hseed 0%nat).
  - apply (Hloop 2%nat 1 [] [js "A"]).
Defined.

(** The narrowing at the row of [okButton], matched by the query [ok]. *)
Lemma narrowed_example :
  searchResults okProps = Some okSearch
  ∧ js "7" ∈ matches okSearch
  ∧ NarrowedHighlight asciiLower (Some (js "ok")) okButton
      (ElementsRow toLowerCaseUnits
         (buildRow okProps initialState (rowOf (js "7") okButton 1) 0)).
Proof.
  split; [reflexivity|].
  assert (js "7" ∈ matches okSearch) as Hin by (cbn; by apply elem_of_singleton_2).
  split; [exact Hin|].
  apply (proj1 (highlight_narrowed_to_name_id_addr toLowerCaseUnits asciiLower okProps
                  initialState (rowOf (js "7") okButton 1) 0) okSearch eq_refl Hin).
  - reflexivity.
  - intros a Ha. cbn in Ha.
    apply elem_of_cons in Ha as [->|Ha]; [reflexivity|].
    apply elem_of_cons in Ha as [->|Ha]; [reflexivity|].
    apply list_elem_of_singleton in Ha as ->. reflexivity.
  - intros h [= <-]. reflexivity.
Defined.

(** ArrowLeft at the example with [D] selected. *)
Lemma ArrowLeft_example_parent :
  setProps 3 (propsOf exampleElements (Some "A") (Some "D")) = Some (projection exampleRows)
  ∧ firstAt (flatKeys (projection exampleRows)) 2 (js "D")
  ∧ ∃ r, flatElements (projection exampleRows) !! 2%nat = Some r
      ∧ ((∃ j p, nearestAtLevel exampleRows 2 (level r - 1) j p
            ∧ onKeyDown (js "linux") (press "ArrowLeft")
                (propsOf exampleElements (Some "A") (Some "D")) (projection exampleRows)
              = Completed (PreventDefault ::
                  if truthy (key p) then [OnElementSelected (Some (key p))] else []))
         ∨ (noneAtLevel exampleRows 2 (level r - 1)
            ∧ onKeyDown (js "linux") (press "ArrowLeft")
                (propsOf exampleElements (Some "A") (Some "D")) (projection exampleRows)
              = Completed [PreventDefault])).
Proof.
  assert (firstAt (flatKeys (projection exampleRows)) 2 (js "D")) as Hat.
  { split; [reflexivity|]. cbn.
    apply not_elem_of_cons. split; [done|].
    apply not_elem_of_cons. split; [done|apply not_elem_of_nil]. }
  split; [by vm_compute|]. split; [exact Hat|].
  apply (ArrowLeft_collapse_or_parent (js "linux") (press "ArrowLeft")
           (propsOf exampleElements (Some "A") (Some "D")) 3 (projection exampleRows)
           (js "D") 2 (node "D" false []));
    [by vm_compute|reflexivity|exact Hat|reflexivity|reflexivity|reflexivity].
Defined.

(** ArrowRight at the example with [A] selected. *)
Lemma ArrowRight_example_child :
  setProps 3 (propsOf exampleElements (Some "A") (Some "A")) = Some (projection exampleRows)
  ∧ onKeyDown (js "linux") (press "ArrowRight")
      (propsOf exampleElements (Some "A") (Some "A")) (projection exampleRows)
    = Completed [PreventDefault; OnElementSelected (Some (js "B"))].
Proof.
  split; [by vm_compute|].
  apply (ArrowRight_child_or_expand (js "linux") (press "ArrowRight")
           (propsOf exampleElements (Some "A") (Some "A")) 3 (projection exampleRows)
           (js "A") 0 (node "A" true ["B"; "C"]) [js "B"; js "C"]);
    [by vm_compute|reflexivity| |reflexivity|reflexivity|reflexivity].
  split; [reflexivity|]. cbn. apply not_elem_of_nil.
Defined.

(** [PartialHighlight] on ASCII text: [LO w] in [Hello World]. *)
Lemma PartialHighlight_example_ascii :
  ∃ i, occursAt asciiLower (js "Hello World") (js "LO w") i
    ∧ PartialHighlight toLowerCaseUnits (Some (js "LO w")) (js "Hello World")
      = Marked (js "Hel") (js "lo W") (js "orld").
Proof.
  destruct (PartialHighlight_unitwise toLowerCaseUnits asciiLower
              (js "LO w") (js "Hello World")) as [Hfound _]; try done.
  destruct Hfound as (i & Hocc & Hfirst & Heq & _).
  - exists 3%nat. split; [vm_compute; lia|reflexivity].
  - exists i. split; [exact Hocc|]. by vm_compute.
Defined.

(** ** Invariants of the flattened state *)

Lemma maxLevel_bounds m rows :
  m <= maxLevel m rows ∧ Forall (fun r => level r <= maxLevel m rows) rows.
Proof.
  revert m. induction rows as [|r rows IH]; intros m; simpl.
  - split; [lia|constructor].
  - destruct (IH (Z.max m (level r))) as [Hm Hall]. split; [lia|].
    constructor; [lia|done].
Qed.

Lemma maxLevel_attained m rows :
  maxLevel m rows = m ∨ ∃ r, r ∈ rows ∧ level r = maxLevel m rows.
Proof.
  revert m. induction rows as [|r rows IH]; intros m; simpl; [by left|].
  destruct (IH (Z.max m (level r))) as [->|(r' & Hr' & Hl)].
  - destruct (Z.max_spec m (level r)) as [[_ ->]|[_ ->]].
    + right. exists r. split; [apply list_elem_of_here|done].
    + by left.
  - right. exists r'. split; [by apply list_elem_of_further|done].
Qed.

Lemma flat_levels_bounds fuel props st :
  setProps fuel props = Some st ->
  ∃ rows, st = projection rows
    ∧ Forall (fun r => 1 <= level r) rows
    ∧ Forall (fun r => level r <= maxLevel 0 rows) rows.
Proof.
  intros Hset.
  assert (∃ rows, st = projection rows ∧ Forall (fun r => 1 <= level r) rows)
    as (rows & -> & Hlow).
  { unfold setProps in Hset. destruct (root props) as [r|].
    - apply seed_sound in Hset as (rows & Hp & ->). exists rows. split; [done|].
      by apply Preorder_levels in Hp as [? _].
    - injection Hset as <-. exists []. split; [done|constructor]. }
  exists rows. split; [done|]. split; [done|].
  by destruct (maxLevel_bounds 0 rows) as [_ ?].
Qed.

(** The rows that [setProps] returns are at the levels from 1 to
    [maxDepth], [maxDepth] is the level of one of them, and it is 0 exactly
    when there is no row. *)
Theorem setProps_levels_within_maxDepth fuel props st :
  setProps fuel props = Some st ->
  (∀ r, r ∈ flatElements st -> 1 <= level r <= maxDepth st)
  ∧ (flatElements st ≠ [] -> ∃ r, r ∈ flatElements st ∧ level r = maxDepth st)
  ∧ (maxDepth st = 0 ↔ flatElements st = []).
Proof.
  intros (rows & -> & Hlow & Hhigh)%flat_levels_bounds. simpl.
  assert (rows ≠ [] -> ∃ r, r ∈ rows ∧ level r = maxLevel 0 rows) as Hattained.
  { intros Hne. destruct (maxLevel_attained 0 rows) as [H0|H]; [|done].
    destruct rows as [|r rows]; [done|]. exists r. split; [apply list_elem_of_here|].
    apply Forall_cons in Hlow as [? _]. apply Forall_cons in Hhigh as [? _]. lia. }
  split; [|split; [done|split]].
  - intros r Hr. rewrite Forall_forall in Hlow, Hhigh. split; [by apply Hlow|by apply Hhigh].
  - intros H0. destruct rows as [|r rows]; [done|].
    destruct Hattained as (r' & Hr' & Hl); [done|].
    rewrite Forall_forall in Hlow. specialize (Hlow r' Hr'). lia.
  - by intros ->.
Qed.

(** The rows and the keys that [setProps] returns go index by index, and
    each row holds what the read [props.elements[key]] yields for its key:
    the node that the store object has for the key or, where it has none,
    the inherited property of that name. *)
Theorem setProps_rows_hold_what_is_read fuel props st proto own :
  elements props = propertiesOf proto own ->
  setProps fuel props = Some st ->
  length (flatKeys st) = length (flatElements st)
  ∧ ∀ i r, flatElements st !! i = Some r ->
      flatKeys st !! i = Some (key r)
      ∧ (own !! key r = Some (element r)
         ∨ (own !! key r = None ∧ proto !! key r = Some (element r))).
Proof.
  intros Hels (rows & -> & Hin)%setProps_rows. simpl. split; [by rewrite length_fmap|].
  intros i r Hr. split.
  - by rewrite list_lookup_fmap, Hr.
  - apply lookup_union_Some_raw. unfold propertiesOf in Hels. rewrite <- Hels.
    apply Hin. by eapply list_elem_of_lookup_2.
Qed.

(** ** One key press *)

Lemma onKeyDown_c platform e props st sel el i :
  selected props = Some sel ->
  firstAt (flatKeys st) i sel ->
  elements props !! sel = Some el ->
  ev_key e = js "c" ->
  onKeyDown platform e props st
  = if copyModifier platform e
    then Completed [PreventDefault; ClipboardWriteText (el_name el)]
    else Completed [].
Proof.
  intros Hsel Hi Hel Hk. pass_guards Hsel Hi Hel. eval_keys Hk.
  unfold copyModifier.
  by destruct ((metaKey e && bool_decide (platform = js "darwin"))
               || (ctrlKey e && negb (bool_decide (platform = js "darwin")))).
Qed.

Lemma onKeyDown_other_key platform e props st :
  ev_key e ≠ js "c" -> ev_key e ≠ js "ArrowUp" -> ev_key e ≠ js "ArrowDown" ->
  ev_key e ≠ js "ArrowLeft" -> ev_key e ≠ js "ArrowRight" ->
  onKeyDown platform e props st = Completed [].
Proof.
  intros Hc Hu Hd Hl Hr. unfold onKeyDown, isKey.
  rewrite (bool_decide_eq_false_2 _ Hc), (bool_decide_eq_false_2 _ Hu),
    (bool_decide_eq_false_2 _ Hd), (bool_decide_eq_false_2 _ Hl),
    (bool_decide_eq_false_2 _ Hr).
  destruct (selected props) as [sel|]; [|done].
  destruct (indexOf (flatKeys st) sel <? 0); [done|].
  by destruct (elements props !! sel).
Qed.

(** The row of the selected identity, in a state that [setProps] returned:
    it is at the index of the identity and holds its element. *)
Lemma selected_row fuel props st sel el i :
  setProps fuel props = Some st ->
  firstAt (flatKeys st) i sel ->
  elements props !! sel = Some el ->
  ∃ r, flatElements st !! i = Some r ∧ key r = sel ∧ element r = el.
Proof.
  intros Hset [Hi _] Hel.
  pose proof (setProps_parallel _ _ _ Hset) as Hpar.
  rewrite Hpar, list_lookup_fmap in Hi.
  destruct (flatElements st !! i) as [r|] eqn:Hr; [|done].
  injection Hi as Hi. exists r. split; [done|]. split; [done|].
  apply setProps_rows in Hset as (rows & -> & Hin). simpl in Hr.
  apply list_elem_of_lookup_2, Hin in Hr. rewrite Hi, Hel in Hr. by injection Hr.
Qed.

(** One key press on a state that [setProps] returned ends in one of four
    ways: nothing at all; [preventDefault] alone (ArrowLeft that selects
    nothing); [preventDefault] and then one request out of [Request] (never a
    deep expansion, never the selection of [undefined]); or a [TypeError]
    before any effect, which only ArrowRight on an element whose [children]
    is [null] raises. *)
Theorem onKeyDown_one_request platform e props fuel st :
  setProps fuel props = Some st ->
  match onKeyDown platform e props st with
  | Completed log =>
      log = []
      ∨ (log = [PreventDefault] ∧ ev_key e = js "ArrowLeft")
      ∨ ∃ x, log = [PreventDefault; x] ∧ Request props st x
  | TypeError log =>
      log = [] ∧ ev_key e = js "ArrowRight"
      ∧ ∃ sel el, selected props = Some sel ∧ elements props !! sel = Some el
          ∧ el_children el = None
  end.
Proof.
  intros Hset.
  destruct (selected props) as [sel|] eqn:Hsel;
    [|rewrite onKeyDown_guarded by (by left); by left].
  destruct (decide (sel ∈ flatKeys st)) as [Hin|Hnotin];
    [|rewrite onKeyDown_guarded by (right; exists sel; split; [done|by left]); by left].
  destruct (elements props !! sel) as [el|] eqn:Hel;
    [|rewrite onKeyDown_guarded by (right; exists sel; split; [done|by right]); by left].
  destruct (firstAt_exists _ _ Hin) as [i Hi].
  pose proof Hi as [Hlt%lookup_lt_Some _].
  destruct (decide (ev_key e = js "c")) as [Hk|Hc].
  { rewrite (onKeyDown_c _ _ _ _ _ _ _ Hsel Hi Hel Hk).
    destruct (copyModifier platform e); [|by left].
    right; right. eexists. split; [done|]. by eapply request_copy. }
  destruct (decide (ev_key e = js "ArrowUp")) as [Hk|Hu].
  { rewrite (onKeyDown_ArrowUp _ _ _ _ _ _ _ Hsel Hi Hel Hk).
    destruct i as [|j]; [by left|].
    destruct (lookup_lt_is_Some_2 (flatKeys st) j ltac:(lia)) as [k Hj]. rewrite Hj.
    right; right. eexists. split; [done|].
    apply request_row. by eapply list_elem_of_lookup_2. }
  destruct (decide (ev_key e = js "ArrowDown")) as [Hk|Hd].
  { rewrite (onKeyDown_ArrowDown _ _ _ _ _ _ _ Hsel Hi Hel Hk).
    case_bool_decide as Hlast; [by left|].
    destruct (lookup_lt_is_Some_2 (flatKeys st) (S i) ltac:(lia)) as [k Hj]. rewrite Hj.
    right; right. eexists. split; [done|].
    apply request_row. by eapply list_elem_of_lookup_2. }
  destruct (decide (ev_key e = js "ArrowLeft")) as [Hk|Hl].
  { destruct (el_expanded el) eqn:Hex.
    - rewrite (onKeyDown_ArrowLeft_expanded _ _ _ _ _ _ _ Hsel Hi Hel Hk Hex).
      right; right. eexists. split; [done|]. by apply request_toggle.
    - destruct (selected_row _ _ _ _ _ _ Hset Hi Hel) as (r & Hr & _).
      pose proof (setProps_parallel _ _ _ Hset) as Hpar.
      destruct (onKeyDown_ArrowLeft_collapsed platform _ _ _ _ _ _ _ Hsel Hi Hel Hk Hex Hpar Hr)
        as [(j & p & (_ & Hp & _) & ->)|[_ ->]]; [|by right; left].
      destruct (truthy (key p)); [|by right; left].
      right; right. eexists. split; [done|]. apply request_row.
      rewrite Hpar. apply list_elem_of_fmap_2. by eapply list_elem_of_lookup_2. }
  destruct (decide (ev_key e = js "ArrowRight")) as [Hk|Hr].
  { rewrite (onKeyDown_ArrowRight _ _ _ _ _ _ _ Hsel Hi Hel Hk).
    destruct (el_children el) as [[|c cs]|] eqn:Hch.
    - by left.
    - destruct (el_expanded el) eqn:Hex; right; right; eexists; (split; [done|]).
      + by eapply request_child.
      + by apply request_toggle.
    - split; [done|]. split; [done|]. by exists sel, el. }
  rewrite onKeyDown_other_key by done. by left.
Qed.

(** The copy shortcut: with an element selected that has a row, the key [c]
    writes the name of the element to the clipboard when [meta] is down on
    macOS or [ctrl] is down on another platform, and does nothing at all
    otherwise ([ctrl] on macOS, [meta] elsewhere, or no modifier). *)
Theorem copy_shortcut platform e props fuel st sel i :
  setProps fuel props = Some st ->
  selected props = Some sel ->
  firstAt (flatKeys st) i sel ->
  ev_key e = js "c" ->
  ∃ el, elements props !! sel = Some el
    ∧ onKeyDown platform e props st
      = if (if bool_decide (platform = js "darwin") then metaKey e else ctrlKey e)
        then Completed [PreventDefault; ClipboardWriteText (el_name el)]
        else Completed [].
Proof.
  intros Hset Hsel Hi Hk.
  assert (is_Some (elements props !! sel)) as [el Hel].
  { eapply setProps_key_in_store; [done|]. destruct Hi as [Hi _].
    by eapply list_elem_of_lookup_2. }
  exists el. split; [done|].
  rewrite (onKeyDown_c _ _ _ _ _ _ _ Hsel Hi Hel Hk). unfold copyModifier.
  destruct (bool_decide (platform = js "darwin")), (metaKey e), (ctrlKey e); done.
Qed.

(** ** Where the arrow keys lead *)

Lemma setProps_parents fuel props st :
  setProps fuel props = Some st -> rowsHaveParents (flatElements st).
Proof.
  unfold setProps. destruct (root props) as [r|].
  - intros (rows & Hp & ->)%seed_sound. simpl. by eapply Preorder_parents.
  - intros [= <-] pre c post E. by destruct pre.
Qed.

Lemma NoDup_firstAt (l : list ElementID) i x :
  NoDup l -> l !! i = Some x -> firstAt l i x.
Proof.
  intros Hnd Hi. split; [done|].
  intros (j & Hj)%list_elem_of_lookup_1.
  pose proof Hj as Hlt%lookup_lt_Some. rewrite length_take in Hlt.
  rewrite lookup_take_lt in Hj by lia.
  pose proof (NoDup_lookup _ _ _ _ Hnd Hi Hj). lia.
Qed.

(** The parent row of the row at index [i > 0]: the row [j] before it from
    which the walk came down to it. *)
Lemma parent_row fuel props st i r :
  setProps fuel props = Some st ->
  flatElements st !! i = Some r ->
  (0 < i)%nat ->
  ∃ j p, (j < i)%nat ∧ flatElements st !! j = Some p
    ∧ level r = level p + 1
    ∧ el_expanded (element p) = true
    ∧ key r ∈ childrenOf (element p)
    ∧ ∀ j' x, (j < j' < i)%nat -> flatElements st !! j' = Some x -> level p < level x.
Proof.
  intros Hset Hr Hpos.
  pose proof (setProps_parents _ _ _ Hset) as Hpar.
  pose proof (lookup_lt_Some _ _ _ Hr) as Hlt.
  destruct (Hpar (take i (flatElements st)) r (drop (S i) (flatElements st)))
    as (pre' & p & mid & Epre & Hl & Hex & Hin & Hmid).
  { by rewrite take_drop_middle. }
  { intros E. apply (f_equal length) in E. rewrite length_take in E. simpl in E. lia. }
  assert (flatElements st = (pre' ++ p :: mid) ++ r :: drop (S i) (flatElements st)) as E.
  { rewrite <- Epre. by rewrite take_drop_middle. }
  assert (i = length pre' + S (length mid))%nat as Ei.
  { apply (f_equal length) in Epre. rewrite length_take, length_app in Epre.
    simpl in Epre. lia. }
  exists (length pre'), p. split; [lia|]. split.
  { rewrite E. rewrite lookup_app_l by (rewrite length_app; simpl; lia).
    by apply list_lookup_middle. }
  split; [done|]. split; [done|]. split; [done|].
  intros j' x Hj' Hx. rewrite E in Hx.
  rewrite lookup_app_l in Hx by (rewrite length_app; simpl; lia).
  rewrite lookup_app_r in Hx by lia.
  destruct (j' - length pre')%nat as [|n] eqn:En; [lia|]. simpl in Hx.
  rewrite Forall_forall in Hmid. apply Hmid. by eapply list_elem_of_lookup_2.
Qed.

(** ArrowLeft on a collapsed element: the scan stops at the parent row. *)
Lemma ArrowLeft_at_parent_row platform e props fuel st sel el i :
  setProps fuel props = Some st ->
  selected props = Some sel ->
  firstAt (flatKeys st) i sel ->
  elements props !! sel = Some el ->
  el_expanded el = false ->
  ev_key e = js "ArrowLeft" ->
  (i = 0%nat -> onKeyDown platform e props st = Completed [PreventDefault])
  ∧ ((0 < i)%nat ->
     ∃ j p r, (j < i)%nat ∧ flatElements st !! j = Some p
       ∧ flatElements st !! i = Some r
       ∧ level r = level p + 1
       ∧ el_expanded (element p) = true
       ∧ sel ∈ childrenOf (element p)
       ∧ (∀ j' x, (j < j' < i)%nat -> flatElements st !! j' = Some x -> level p < level x)
       ∧ onKeyDown platform e props st
         = Completed (PreventDefault ::
             if truthy (key p) then [OnElementSelected (Some (key p))] else [])).
Proof.
  intros Hset Hsel Hi Hel Hex Hk.
  destruct (selected_row _ _ _ _ _ _ Hset Hi Hel) as (r & Hr & Hkr & _).
  pose proof (setProps_parallel _ _ _ Hset) as Hpar.
  pose proof (onKeyDown_ArrowLeft_collapsed platform _ _ _ _ _ _ _
                Hsel Hi Hel Hk Hex Hpar Hr) as Hscan.
  split.
  - intros ->. destruct Hscan as [(j & p & (Hj & Hp & Hl & _) & _)|[_ ->]]; [|done].
    assert (j = 0%nat) as -> by lia. rewrite Hr in Hp. injection Hp as <-. lia.
  - intros Hpos.
    destruct (parent_row _ _ _ _ _ Hset Hr Hpos) as (j & p & Hj & Hp & Hl & Hpe & Hin & Hmid).
    exists j, p, r. rewrite Hkr in Hin. do 7 (split; [done|]).
    destruct Hscan as [(j' & p' & (Hj' & Hp' & Hl' & Hbetween) & ->)|[Hnone _]].
    + assert (j' = j) as ->.
      { destruct (Nat.lt_trichotomy j' j) as [Hlt|[->|Hgt]]; [|done|].
        - exfalso. apply (Hbetween j p); [lia|done|lia].
        - exfalso. destruct (decide (j' = i)) as [->|].
          + rewrite Hr in Hp'. injection Hp' as <-. lia.
          + specialize (Hmid j' p' ltac:(lia) Hp'). lia. }
      rewrite Hp in Hp'. by injection Hp' as <-.
    + exfalso. apply (Hnone j p); [lia|done|lia].
Qed.

(** ArrowLeft leads to the parent. With a collapsed element selected whose
    row is at index [i] of a flattened sequence: at [i = 0] (the root) it
    selects nothing; at [i > 0] the row it looks for is the parent row, an
    earlier row one level up whose element is expanded and has the selected
    identity among its children, and it selects the identity of that row
    (unless that is the empty string). *)
Theorem ArrowLeft_selects_tree_parent platform e props fuel st sel el i :
  setProps fuel props = Some st ->
  selected props = Some sel ->
  firstAt (flatKeys st) i sel ->
  elements props !! sel = Some el ->
  el_expanded el = false ->
  ev_key e = js "ArrowLeft" ->
  (i = 0%nat -> onKeyDown platform e props st = Completed [PreventDefault])
  ∧ ((0 < i)%nat ->
     ∃ j p, (j < i)%nat ∧ flatElements st !! j = Some p
       ∧ elements props !! key p = Some (element p)
       ∧ el_expanded (element p) = true
       ∧ sel ∈ childrenOf (element p)
       ∧ onKeyDown platform e props st
         = Completed (PreventDefault ::
             if truthy (key p) then [OnElementSelected (Some (key p))] else [])).
Proof.
  intros Hset Hsel Hi Hel Hex Hk.
  destruct (ArrowLeft_at_parent_row platform e _ _ _ _ _ _ Hset Hsel Hi Hel Hex Hk)
    as [Hroot Hparent].
  split; [done|]. intros Hpos.
  destruct (Hparent Hpos) as (j & p & r & Hj & Hp & _ & _ & Hpe & Hin & _ & Hout).
  exists j, p. do 2 (split; [done|]). split; [|done].
  apply setProps_rows in Hset as (rows & -> & Hstore). apply Hstore.
  by eapply list_elem_of_lookup_2.
Qed.

Lemma PreorderAll_first els c cs lv rows e :
  PreorderAll els (c :: cs) lv rows -> els !! c = Some e ->
  ∃ rest, rows = rowOf c e lv :: rest.
Proof.
  intros H He. inversion H as [|? ? ? rows1 rows2 H1 H2]; subst.
  inversion H1 as [? ? Hmiss|? ? e' He' _|? ? e' rows' He' _ _ _]; subst.
  - congruence.
  - rewrite He in He'. injection He' as <-. by eexists.
  - rewrite He in He'. injection He' as <-. by eexists.
Qed.

(** After the row of an expanded element comes the row of its first child,
    one level down, when the store has that child. *)
Lemma first_child_row fuel props st i r c cs :
  setProps fuel props = Some st ->
  flatElements st !! i = Some r ->
  el_expanded (element r) = true ->
  el_children (element r) = Some (c :: cs) ->
  is_Some (elements props !! c) ->
  ∃ r', flatElements st !! S i = Some r' ∧ key r' = c ∧ level r' = level r + 1.
Proof.
  intros Hset Hr Hex Hch [ec Hc].
  destruct (setProps_thenChildren _ _ _ Hset (take i (flatElements st)) r
              (drop (S i) (flatElements st)))
    as (sub & post' & E & _ & _ & _ & Hd).
  { by rewrite take_drop_middle. }
  assert (descends (element r) = true) as Hdesc by (unfold descends; by rewrite Hch).
  rewrite Hdesc in Hd. unfold childrenOf in Hd. rewrite Hch in Hd. simpl in Hd.
  destruct (PreorderAll_first _ _ _ _ _ _ Hd Hc) as [rest ->].
  exists (rowOf c ec (level r + 1)). split; [|done].
  apply (f_equal (fun l => l !! 0%nat)) in E. rewrite lookup_drop in E.
  by rewrite Nat.add_0_r in E.
Qed.

(** On an expanded element whose first child is in the store, ArrowRight
    and ArrowDown do the same: the row of the first child is the next row,
    and both select it. *)
Theorem ArrowRight_is_ArrowDown platform right down props fuel st sel el i c cs :
  setProps fuel props = Some st ->
  selected props = Some sel ->
  firstAt (flatKeys st) i sel ->
  elements props !! sel = Some el ->
  el_expanded el = true ->
  el_children el = Some (c :: cs) ->
  is_Some (elements props !! c) ->
  ev_key right = js "ArrowRight" ->
  ev_key down = js "ArrowDown" ->
  flatKeys st !! S i = Some c
  ∧ onKeyDown platform right props st
    = Completed [PreventDefault; OnElementSelected (Some c)]
  ∧ onKeyDown platform down props st
    = Completed [PreventDefault; OnElementSelected (Some c)].
Proof.
  intros Hset Hsel Hi Hel Hex Hch Hc Hkr Hkd.
  destruct (selected_row _ _ _ _ _ _ Hset Hi Hel) as (r & Hr & _ & Her).
  rewrite <- Her in Hex, Hch.
  destruct (first_child_row _ _ _ _ _ _ _ Hset Hr Hex Hch Hc) as (r' & Hr' & Hkr' & _).
  assert (flatKeys st !! S i = Some c) as Hnext.
  { rewrite (setProps_parallel _ _ _ Hset), list_lookup_fmap, Hr'. simpl. by rewrite Hkr'. }
  split; [done|]. split.
  - rewrite (onKeyDown_ArrowRight _ _ _ _ _ _ _ Hsel Hi Hel Hkr).
    rewrite Her in Hex, Hch. by rewrite Hch, Hex.
  - rewrite (onKeyDown_ArrowDown _ _ _ _ _ _ _ Hsel Hi Hel Hkd).
    pose proof (lookup_lt_Some _ _ _ Hnext) as Hlt.
    rewrite bool_decide_eq_false_2 by lia. by rewrite Hnext.
Qed.

(** ** Round trips of the arrow keys *)

(** The projection does not depend on the selection. *)
Lemma setProps_same_tree fuel props props' :
  root props' = root props -> elements props' = elements props ->
  setProps fuel props' = setProps fuel props.
Proof. intros Hr He. unfold setProps. by rewrite Hr, He. Qed.

(** ArrowDown and ArrowUp undo each other. For two adjacent rows of a
    flattened sequence without repeated keys, [a] at index [i] and [b] at
    index [i + 1]: with [a] selected ArrowDown selects [b], and once the host
    has made [b] the selection (same root, same store, so the same
    projection) ArrowUp selects [a]. *)
Theorem ArrowDown_ArrowUp_inverse platform down up propsA propsB fuel st a b i :
  setProps fuel propsA = Some st ->
  NoDup (flatKeys st) ->
  flatKeys st !! i = Some a ->
  flatKeys st !! S i = Some b ->
  selected propsA = Some a ->
  selected propsB = Some b ->
  root propsB = root propsA ->
  elements propsB = elements propsA ->
  ev_key down = js "ArrowDown" ->
  ev_key up = js "ArrowUp" ->
  setProps fuel propsB = Some st
  ∧ onKeyDown platform down propsA st
    = Completed [PreventDefault; OnElementSelected (Some b)]
  ∧ onKeyDown platform up propsB st
    = Completed [PreventDefault; OnElementSelected (Some a)].
Proof.
  intros Hset Hnd Ha Hb HselA HselB Hroot Hels Hkd Hku.
  assert (setProps fuel propsB = Some st) as HsetB
    by by rewrite (setProps_same_tree _ _ _ Hroot Hels).
  split; [done|].
  pose proof (NoDup_firstAt _ _ _ Hnd Ha) as Hia.
  pose proof (NoDup_firstAt _ _ _ Hnd Hb) as Hib.
  destruct (setProps_key_in_store _ _ _ a Hset) as [ea Hea];
    [by eapply list_elem_of_lookup_2|].
  destruct (setProps_key_in_store _ _ _ b HsetB) as [eb Heb];
    [by eapply list_elem_of_lookup_2|].
  split.
  - rewrite (onKeyDown_ArrowDown _ _ _ _ _ _ _ HselA Hia Hea Hkd).
    pose proof (lookup_lt_Some _ _ _ Hb).
    rewrite bool_decide_eq_false_2 by lia. by rewrite Hb.
  - rewrite (onKeyDown_ArrowUp _ _ _ _ _ _ _ HselB Hib Heb Hku). by rewrite Ha.
Qed.

(** ArrowRight and ArrowLeft undo each other. In a flattened sequence
    without repeated keys, with an expanded element [a] selected whose first
    child [c] is in the store: ArrowRight selects [c]; once the host has made
    [c] the selection, and if [c] is collapsed, ArrowLeft selects [a] again
    (for [a] other than the empty string). *)
Theorem ArrowRight_ArrowLeft_inverse platform right left propsA propsC fuel st
    a ea c cs ec i :
  setProps fuel propsA = Some st ->
  NoDup (flatKeys st) ->
  flatKeys st !! i = Some a ->
  selected propsA = Some a ->
  elements propsA !! a = Some ea ->
  el_expanded ea = true ->
  el_children ea = Some (c :: cs) ->
  elements propsA !! c = Some ec ->
  el_expanded ec = false ->
  truthy a = true ->
  selected propsC = Some c ->
  root propsC = root propsA ->
  elements propsC = elements propsA ->
  ev_key right = js "ArrowRight" ->
  ev_key left = js "ArrowLeft" ->
  setProps fuel propsC = Some st
  ∧ onKeyDown platform right propsA st
    = Completed [PreventDefault; OnElementSelected (Some c)]
  ∧ onKeyDown platform left propsC st
    = Completed [PreventDefault; OnElementSelected (Some a)].
Proof.
  intros Hset Hnd Ha HselA Hea Hexa Hch Hec Hexc Hta HselC Hroot Hels Hkr Hkl.
  assert (setProps fuel propsC = Some st) as HsetC
    by by rewrite (setProps_same_tree _ _ _ Hroot Hels).
  split; [done|].
  pose proof (NoDup_firstAt _ _ _ Hnd Ha) as Hia.
  destruct (selected_row _ _ _ _ _ _ Hset Hia Hea) as (r & Hr & Hkra & Her).
  assert (el_expanded (element r) = true) as Hexr by by rewrite Her.
  assert (el_children (element r) = Some (c :: cs)) as Hchr by by rewrite Her.
  destruct (first_child_row _ _ _ _ _ _ _ Hset Hr Hexr Hchr (ex_intro _ ec Hec))
    as (r' & Hr' & Hkr' & Hlr').
  assert (flatKeys st !! S i = Some c) as Hc.
  { rewrite (setProps_parallel _ _ _ Hset), list_lookup_fmap, Hr'. simpl. by rewrite Hkr'. }
  pose proof (NoDup_firstAt _ _ _ Hnd Hc) as Hic.
  split.
  - rewrite (onKeyDown_ArrowRight _ _ _ _ _ _ _ HselA Hia Hea Hkr). by rewrite Hch, Hexa.
  - rewrite <- Hels in Hec.
    destruct (ArrowLeft_at_parent_row platform left _ _ _ _ _ _ HsetC HselC Hic Hec Hexc Hkl)
      as [_ Hparent].
    destruct (Hparent ltac:(lia))
      as (j & p & rc & Hj & Hp & Hrc & Hl & _ & _ & Hmid & ->).
    rewrite Hr' in Hrc. injection Hrc as <-.
    assert (j = i) as ->.
    { destruct (decide (j = i)) as [|Hne]; [done|].
      specialize (Hmid i r ltac:(lia) Hr). lia. }
    rewrite Hr in Hp. injection Hp as <-. by rewrite Hkra, Hta.
Qed.

(** ** What a row shows *)

Lemma hasChildren_expanded e : hasChildren e && el_expanded e = descends e.
Proof.
  unfold hasChildren, descends. by destruct (el_children e) as [[|? ?]|].
Qed.

(** The [childrenCount] of a row of a flattened sequence is the number of
    rows below it in the walk of its node. *)
Lemma childrenCount_visible fuel props st r i :
  setProps fuel props = Some st ->
  flatElements st !! i = Some r ->
  ∃ sub, Preorder (elements props) (key r) (level r) (r :: sub)
    ∧ childrenCount (buildRow props st r i) = Z.of_nat (length sub)
    ∧ if descends (element r)
      then PreorderAll (elements props) (childrenOf (element r)) (level r + 1) sub
      else sub = [].
Proof.
  intros Hset Hr.
  destruct (setProps_thenChildren _ _ _ Hset (take i (flatElements st)) r
              (drop (S i) (flatElements st)))
    as (sub & post' & E & Hc & Hdeep & Hp & Hd).
  { by rewrite take_drop_middle. }
  destruct (buildRow_childrenCount props st r i)
    as (sub' & post & E' & Hdeep' & Hc' & ->).
  rewrite E in E'.
  pose proof (deeper_prefix_unique _ _ _ _ _ E' Hdeep Hdeep' Hc Hc') as <-.
  by exists sub.
Qed.

(** The walk over children that the store does not have is empty, and the
    walk over children of which the store has one is not. *)
Lemma PreorderAll_empty_iff els cs lv rows :
  PreorderAll els cs lv rows ->
  rows = [] ↔ ∀ c, c ∈ cs -> els !! c = None.
Proof.
  induction 1 as [|c cs lv rows rows' H1 H2 IH].
  - split; [|done]. intros _ c Hc. by apply elem_of_nil in Hc.
  - split.
    + intros [-> ->]%app_eq_nil c' [->|Hc']%elem_of_cons.
      * inversion H1; congruence.
      * by apply IH.
    + intros Hall.
      assert (rows = []) as ->.
      { inversion H1 as [|? ? e He _|? ? e ? He _ _ _]; subst; [done|..];
          rewrite (Hall c (list_elem_of_here _ _)) in He; done. }
      simpl. apply IH. intros c' Hc'. by apply Hall, list_elem_of_further.
Qed.

(** The line of a row. A row of a flattened sequence shows a line exactly
    when it is selected or hovered and the walk went down from its element
    (one or more children, expanded); the arrow is then [chevron-down], and
    the height of the line is [ROW_HEIGHT] times the number of rows below
    the row in the walk of its node, minus 4. That is -4 when the read
    [props.elements[key]] finds none of the children (none is a property of
    the store object itself, none an inherited one), and 19 or more when it
    finds one. *)
Theorem row_line_spans_visible_subtree {D} colors fuel props st r i rowState
    (decorateRow : option (Element -> option D)) proto own :
  elements props = propertiesOf proto own ->
  setProps fuel props = Some st ->
  flatElements st !! i = Some r ->
  (chrome_line (ElementsRowChrome colors (buildRow props st r i) rowState decorateRow) = None
   ↔ ¬ ((selected props = Some (key r) ∨ hovered rowState = true)
        ∧ descends (element r) = true))
  ∧ ∀ h,
      chrome_line (ElementsRowChrome colors (buildRow props st r i) rowState decorateRow)
      = Some h ->
      (∃ g, chrome_arrow (ElementsRowChrome colors (buildRow props st r i) rowState decorateRow)
            = Some g ∧ glyph_name g = js "chevron-down")
      ∧ (∃ sub, Preorder (elements props) (key r) (level r) (r :: sub)
           ∧ h = ROW_HEIGHT * Z.of_nat (length sub) - 4)
      ∧ ((∀ c, c ∈ childrenOf (element r) -> own !! c = None ∧ proto !! c = None) ->
         h = -4)
      ∧ ((∃ c, c ∈ childrenOf (element r) ∧ (is_Some (own !! c) ∨ is_Some (proto !! c))) ->
         19 <= h).
Proof.
  intros Hels Hset Hr.
  destruct (childrenCount_visible _ _ _ _ _ Hset Hr) as (sub & Hp & Hcount & Hd).
  unfold ElementsRowChrome. cbn [chrome_line chrome_arrow row_element buildRow
    row_selected row_focused].
  rewrite <- andb_assoc, hasChildren_expanded. split.
  - destruct (descends (element r)) eqn:Hdesc.
    + rewrite andb_true_r. destruct (bool_decide (selected props = Some (key r))) eqn:Hs.
      * apply bool_decide_eq_true in Hs. simpl. split; [done|]. intros Hn. destruct Hn. tauto.
      * apply bool_decide_eq_false in Hs. simpl.
        destruct (hovered rowState); split; try done.
        -- intros Hn. destruct Hn. tauto.
        -- intros _ [[?|?] _]; done.
    + rewrite andb_false_r. split; [|done]. intros _ [_ ?]. done.
  - intros h Hh.
    destruct (descends (element r)) eqn:Hdesc; [|by rewrite andb_false_r in Hh].
    destruct (bool_decide (selected props = Some (key r)) || hovered rowState); [|done].
    injection Hh as <-.
    assert (hasChildren (element r) = true ∧ el_expanded (element r) = true) as [Hhc Hex].
    { rewrite <- hasChildren_expanded in Hdesc. by apply andb_true_iff in Hdesc. }
    rewrite Hhc, Hex. split; [by eexists|].
    change (childrenCount (buildRow props st r i)) with
      (countLoop (flatElements st) (level r) (length (flatElements st)) (S i) 0) in Hcount.
    unfold ElementsLine, ROW_HEIGHT. rewrite Hcount.
    split; [exists sub; split; [done|lia]|].
    pose proof (PreorderAll_empty_iff _ _ _ _ Hd) as Hempty.
    rewrite Hels in Hempty. split.
    + intros Hall.
      assert (sub = []) as ->; [|done].
      apply Hempty. intros c Hc. by apply lookup_union_None, Hall.
    + intros (c & Hc & Hfound).
      destruct sub as [|x sub]; [|simpl; lia].
      pose proof (proj1 Hempty eq_refl c Hc) as [Hown Hproto]%lookup_union_None.
      rewrite Hown, Hproto in Hfound. by destruct Hfound as [[? ?]|[? ?]].
Qed.

(** ** The mouse on a row *)

(** Clicks leave the state of the row alone, and what they do does not
    depend on it. *)
Lemma onMouseAll_clicks h props evs state :
  Forall (fun ev => ev ≠ MouseEnter ∧ ev ≠ MouseLeave) evs ->
  onMouseAll h props evs state
  = (state, (onMouseAll h props evs initialRowState).2).
Proof.
  induction 1 as [|ev evs [Hne Hnl] _ IH]; [done|].
  cbn [onMouseAll]. destruct ev as [| | |alt]; try done; cbn [onMouse].
  - rewrite IH. rewrite (surjective_pairing (onMouseAll h props evs initialRowState)).
    done.
  - rewrite IH. rewrite (surjective_pairing (onMouseAll h props evs initialRowState)).
    done.
Qed.

Lemma onMouseAll_app h props evs1 evs2 state :
  onMouseAll h props (evs1 ++ evs2) state
  = let '(state1, log1) := onMouseAll h props evs1 state in
    let '(state2, log2) := onMouseAll h props evs2 state1 in
    (state2, log1 ++ log2).
Proof.
  revert state. induction evs1 as [|ev evs1 IH]; intros state.
  - cbn. by destruct (onMouseAll h props evs2 state).
  - cbn [app onMouseAll]. destruct (onMouse h props ev state) as [s1 l1].
    rewrite IH. destruct (onMouseAll h props evs1 s1) as [s2 l2].
    destruct (onMouseAll h props evs2 s2) as [s3 l3]. by rewrite app_assoc.
Qed.

(** Hovering is a round trip. The pointer enters a row, clicks and double
    clicks any number of times, and leaves: the row ends not hovered, as it
    started; the host is told the identity on entering and [null] on
    leaving when [onElementHovered] is set, and nothing about hovering when
    it is not; the clicks in between do what they do on a row that is not
    hovered. While hovered, a row whose element has children and is expanded
    shows its line even when it is not selected. *)
Theorem hover_round_trip {D} colors h props evs
    (decorateRow : option (Element -> option D)) :
  Forall (fun ev => ev ≠ MouseEnter ∧ ev ≠ MouseLeave) evs ->
  onMouseAll h props (MouseEnter :: evs ++ [MouseLeave]) initialRowState
  = (initialRowState,
     (if h then [OnElementHovered (Some (row_id props))] else [])
     ++ (onMouseAll h props evs initialRowState).2
     ++ (if h then [OnElementHovered None] else []))
  ∧ (onMouseAll h props (MouseEnter :: evs) initialRowState).1 = {| hovered := true |}
  ∧ (descends (row_element props) = true ->
     chrome_line (ElementsRowChrome colors props
                    (onMouseAll h props (MouseEnter :: evs) initialRowState).1 decorateRow)
     = Some (ElementsLine (childrenCount props))).
Proof.
  intros Hclicks.
  assert (onMouseAll h props (MouseEnter :: evs) initialRowState
          = ({| hovered := true |},
             (if h then [OnElementHovered (Some (row_id props))] else [])
             ++ (onMouseAll h props evs initialRowState).2)) as Henter.
  { cbn [onMouseAll onMouse onMouseEnter].
    by rewrite (onMouseAll_clicks _ _ _ {| hovered := true |} Hclicks). }
  split; [|split].
  - change (MouseEnter :: evs ++ [MouseLeave]) with ((MouseEnter :: evs) ++ [MouseLeave]).
    rewrite onMouseAll_app, Henter. cbn. by rewrite app_nil_r, app_assoc.
  - by rewrite Henter.
  - intros Hdesc. rewrite Henter. unfold ElementsRowChrome. cbn.
    rewrite <- hasChildren_expanded in Hdesc. apply andb_true_iff in Hdesc as [-> ->].
    by rewrite orb_true_r.
Qed.

(** ** The context menu *)

Lemma getContextMenu_extensions {A} props (exts : list (ContextMenuExtension A)) :
  getContextMenu props exts
  = getContextMenu props []
    ++ ((fun ext => MenuEntry (ext_label ext) (ExtensionClick (ext_click ext (row_id props))))
          <$> exts).
Proof.
  unfold getContextMenu. cbn [foldl].
  generalize
    [ @Separator A;
      MenuEntry (js "Copy")
        (HostClick (ClipboardWriteText
           (el_name (row_element props) ++ js " id=" ++ el_id (row_element props))));
      MenuEntry (if el_expanded (row_element props) then js "Collapse" else js "Expand")
        (HostClick (OnElementExpanded (row_id props) false)) ].
  induction exts as [|ext exts IH]; intros items; cbn [foldl fmap list_fmap].
  - by rewrite app_nil_r.
  - rewrite IH. by rewrite <- app_assoc.
Qed.

(** The context menu of a row is the three fixed items (separator, Copy,
    and Expand or Collapse) followed by one item for each extension, in the
    order of the extensions: the item of extension [i] is at index [3 + i],
    has its label, and runs its callback on the identity of the row.
    Extensions displace none of the fixed items, and the only calls to the
    host in the menu are the clipboard write of Copy and a non-deep
    expansion request for the row. *)
Theorem context_menu_layout {A} props (exts : list (ContextMenuExtension A)) :
  length (getContextMenu props exts) = (3 + length exts)%nat
  ∧ take 3 (getContextMenu props exts) = getContextMenu props []
  ∧ (∀ i ext, exts !! i = Some ext ->
       getContextMenu props exts !! (3 + i)%nat
       = Some (MenuEntry (ext_label ext) (ExtensionClick (ext_click ext (row_id props)))))
  ∧ (∀ label x, MenuEntry label (HostClick x) ∈ getContextMenu props exts ->
       (label = js "Copy"
        ∧ x = ClipboardWriteText
                (el_name (row_element props) ++ js " id=" ++ el_id (row_element props)))
       ∨ (label = (if el_expanded (row_element props) then js "Collapse" else js "Expand")
          ∧ x = OnElementExpanded (row_id props) false)).
Proof.
  rewrite getContextMenu_extensions.
  assert (length (getContextMenu (A:=A) props []) = 3%nat) as Hbase by done.
  split; [by rewrite length_app, length_fmap, Hbase|].
  split; [by rewrite take_app_length' by done|]. split.
  - intros i ext Hext. rewrite lookup_app_r by (rewrite Hbase; lia).
    rewrite Hbase. replace (3 + i - 3)%nat with i by lia.
    by rewrite list_lookup_fmap, Hext.
  - intros label x [Hin|Hin]%elem_of_app.
    + cbn in Hin.
      apply elem_of_cons in Hin as [[=]|Hin].
      apply elem_of_cons in Hin as [[= -> ->]|Hin]; [by left|].
      apply elem_of_cons in Hin as [[= -> ->]|Hin]; [by right|].
      by apply elem_of_nil in Hin.
    + apply list_elem_of_fmap in Hin as (ext & [=] & _).
Qed.

(** ** The rendered rows *)

Lemma renderRows_lookup props st i rp :
  renderRows props st !! i = Some rp ->
  ∃ r, flatElements st !! i = Some r ∧ rp = buildRow props st r i.
Proof.
  unfold renderRows. rewrite list_lookup_imap.
  destruct (flatElements st !! i) as [r|]; [|done].
  intros [= <-]. by exists r.
Qed.

(** One row per flattened element, and at most one of them selected. In a
    sequence without repeated keys (that of a tree-shaped store) [render]
    builds as many rows as [flatElements] has, row [i] for the key at index
    [i]; a row is marked selected exactly when its key is the selected
    identity, so no two rows are, and one is whenever the selected identity
    is in [flatKeys]. The same holds of the focused identity. *)
Theorem at_most_one_row_selected fuel props st :
  setProps fuel props = Some st ->
  NoDup (flatKeys st) ->
  length (renderRows props st) = length (flatKeys st)
  ∧ (∀ i rp, renderRows props st !! i = Some rp ->
       flatKeys st !! i = Some (row_id rp)
       ∧ (row_selected rp = true ↔ selected props = Some (row_id rp))
       ∧ (row_focused rp = true ↔ focused props = Some (row_id rp)))
  ∧ (∀ i j ri rj,
       renderRows props st !! i = Some ri -> renderRows props st !! j = Some rj ->
       (row_selected ri = true -> row_selected rj = true -> i = j)
       ∧ (row_focused ri = true -> row_focused rj = true -> i = j))
  ∧ (∀ sel, selected props = Some sel -> sel ∈ flatKeys st ->
       ∃ i rp, renderRows props st !! i = Some rp ∧ row_selected rp = true).
Proof.
  intros Hset Hnd. pose proof (setProps_parallel _ _ _ Hset) as Hpar.
  assert (∀ i rp, renderRows props st !! i = Some rp ->
            flatKeys st !! i = Some (row_id rp)
            ∧ (row_selected rp = true ↔ selected props = Some (row_id rp))
            ∧ (row_focused rp = true ↔ focused props = Some (row_id rp))) as Hrow.
  { intros i rp (r & Hr & ->)%renderRows_lookup. cbn.
    rewrite Hpar, list_lookup_fmap, Hr, !bool_decide_eq_true. done. }
  split; [|split; [done|split]].
  - unfold renderRows. by rewrite length_imap, Hpar, length_fmap.
  - intros i j ri rj Hi Hj.
    destruct (Hrow _ _ Hi) as (Hki & Hsi & Hfi), (Hrow _ _ Hj) as (Hkj & Hsj & Hfj).
    split.
    + intros Hs1%Hsi Hs2%Hsj. rewrite Hs1 in Hs2. injection Hs2 as Hs2.
      rewrite Hs2 in Hki. by eapply NoDup_lookup.
    + intros Hf1%Hfi Hf2%Hfj. rewrite Hf1 in Hf2. injection Hf2 as Hf2.
      rewrite Hf2 in Hki. by eapply NoDup_lookup.
  - intros sel Hsel (i & Hi)%list_elem_of_lookup_1.
    pose proof Hi as Hi'. rewrite Hpar, list_lookup_fmap in Hi'.
    destruct (flatElements st !! i) as [r|] eqn:Hr; [|done]. injection Hi' as Hkr.
    exists i, (buildRow props st r i). split.
    + unfold renderRows. by rewrite list_lookup_imap, Hr.
    + cbn. apply bool_decide_eq_true. by rewrite Hkr.
Qed.

Section StyleFacts.

Variable colors : Colors.

(** Zebra stripes. A rendered row that is neither selected, nor in the
    match set, nor focused gets the background [light02] at the even
    indexes (0, 2, ...) and none at the odd ones when [alternateRowColor] is
    set, and no background at all when it is not. *)
Theorem zebra_stripes props st i rp :
  renderRows props st !! i = Some rp ->
  row_selected rp = false -> isQueryMatch rp = false -> row_focused rp = false ->
  backgroundColor colors rp
  = if alternateRowColor props && Nat.even i then light02 colors else js "".
Proof.
  intros (r & _ & ->)%renderRows_lookup Hs Hq Hf.
  unfold backgroundColor. rewrite Hs, Hq, Hf. cbn.
  by destruct (alternateRowColor props), (Nat.even i).
Qed.

(** Which colour wins. The row of the selected identity has the selection
    background, hovered or not, and white text, whatever the search results,
    the focus and the index say; another row has [purpleLight] when its key
    is in the match set, focused or not; a row that is neither is green with
    white text, hovered or not, when it is the focused one. *)
Theorem row_colour_precedence props st r i :
  (selected props = Some (key r) ->
     css_backgroundColor (ElementsRowContainer colors (buildRow props st r i))
       = macOSTitleBarIconSelected colors
     ∧ css_hoverBackgroundColor (ElementsRowContainer colors (buildRow props st r i))
       = macOSTitleBarIconSelected colors
     ∧ css_color (ElementsRowContainer colors (buildRow props st r i)) = white colors)
  ∧ (selected props ≠ Some (key r) ->
     (∀ sr, searchResults props = Some sr -> key r ∈ matches sr ->
        css_backgroundColor (ElementsRowContainer colors (buildRow props st r i))
        = purpleLight colors)
     ∧ (containsKeyInSearchResults (searchResults props) (key r) = false ->
        focused props = Some (key r) ->
        css_backgroundColor (ElementsRowContainer colors (buildRow props st r i))
          = js "#00CF52"
        ∧ css_hoverBackgroundColor (ElementsRowContainer colors (buildRow props st r i))
          = js "#00CF52"
        ∧ css_color (ElementsRowContainer colors (buildRow props st r i)) = white colors)).
Proof.
  unfold ElementsRowContainer, backgroundColor, backgroundColorHover. cbn. split.
  - intros Hsel. by rewrite (bool_decide_eq_true_2 _ Hsel).
  - intros Hsel. rewrite (bool_decide_eq_false_2 _ Hsel). split.
    + intros sr Hsr Hin. unfold containsKeyInSearchResults. rewrite Hsr.
      by rewrite (bool_decide_eq_true_2 _ Hin).
    + intros -> Hf. by rewrite (bool_decide_eq_true_2 _ Hf).
Qed.

(** Indentation follows the tree. In a flattened sequence the left padding
    of a row is 12 for each level below the first: 0 for the first row (the
    root), between 0 and 12 times [maxDepth - 1] for every row, and for
    every row after the first 12 more than the padding of its parent row,
    an earlier row whose element has the key of the row among its
    children. *)
Theorem indentation_follows_tree fuel props st :
  setProps fuel props = Some st ->
  (∀ i r, flatElements st !! i = Some r ->
     0 <= css_paddingLeft (ElementsRowContainer colors (buildRow props st r i))
       <= 12 * (maxDepth st - 1))
  ∧ (∀ r, flatElements st !! 0%nat = Some r ->
       css_paddingLeft (ElementsRowContainer colors (buildRow props st r 0)) = 0)
  ∧ (∀ i r, flatElements st !! i = Some r -> (0 < i)%nat ->
       ∃ j p, (j < i)%nat ∧ flatElements st !! j = Some p
         ∧ key r ∈ childrenOf (element p)
         ∧ css_paddingLeft (ElementsRowContainer colors (buildRow props st r i))
           = css_paddingLeft (ElementsRowContainer colors (buildRow props st p j)) + 12).
Proof.
  intros Hset. cbn [css_paddingLeft ElementsRowContainer row_level buildRow].
  split; [|split].
  - intros i r Hr.
    destruct (flat_levels_bounds _ _ _ Hset) as (rows & -> & Hlow & Hhigh).
    simpl in *. apply list_elem_of_lookup_2 in Hr.
    rewrite Forall_forall in Hlow, Hhigh.
    specialize (Hlow r Hr). specialize (Hhigh r Hr). lia.
  - intros r Hr. unfold setProps in Hset. destruct (root props) as [k|].
    + apply seed_sound in Hset as (rows & Hp & ->). simpl in Hr.
      destruct rows as [|r' rows]; [done|]. injection Hr as ->.
      apply Preorder_levels in Hp as [_ Hh].
      destruct (Hh _ _ eq_refl) as (-> & _). done.
    + injection Hset as <-. done.
  - intros i r Hr Hpos.
    destruct (parent_row _ _ _ _ _ Hset Hr Hpos) as (j & p & Hj & Hp & Hl & _ & Hin & _).
    exists j, p. do 3 (split; [done|]). lia.
Qed.

End StyleFacts.

(** The icon tells the tag. Without [decorateRow], a row is decorated
    exactly when the decoration tag of its element is one of [litho],
    [componentkit], [componentscript] and [accessibility], and two decorated
    rows have the same image only if they have the same tag; with
    [decorateRow] the tag is not looked at. *)
Theorem decoration_tells_tag {D} colors props1 props2 state1 state2 :
  (is_Some (chrome_decoration (ElementsRowChrome (D:=D) colors props1 state1 None))
   ↔ el_decoration (row_element props1) ∈
       [js "litho"; js "componentkit"; js "componentscript"; js "accessibility"])
  ∧ (is_Some (chrome_decoration (ElementsRowChrome (D:=D) colors props1 state1 None)) ->
     chrome_decoration (ElementsRowChrome (D:=D) colors props1 state1 None)
     = chrome_decoration (ElementsRowChrome (D:=D) colors props2 state2 None) ->
     el_decoration (row_element props1) = el_decoration (row_element props2))
  ∧ (∀ decorate : Element -> option D,
       chrome_decoration (ElementsRowChrome colors props1 state1 (Some decorate))
       = Decorated <$> decorate (row_element props1)).
Proof.
  cbn [chrome_decoration ElementsRowChrome]. unfold decorationOfTag.
  split; [|split; [|done]].
  - rewrite !elem_of_cons, elem_of_nil.
    repeat case_bool_decide; split; intros Hx; try (by eexists); try tauto.
    by destruct Hx.
  - repeat case_bool_decide; intros [x Hx] Heq; try done; try congruence.
Qed.

(** ** The further theorems at the example *)

Lemma example_state : setProps 3 exampleProps = Some exampleState.
Proof. by vm_compute. Qed.

Lemma example_keys_NoDup : NoDup (flatKeys exampleState).
Proof. apply (bool_decide_unpack _). by vm_compute. Qed.

(** The levels of the example are within 1 and [maxDepth], which is 3. *)
Lemma levels_example :
  setProps 3 exampleProps = Some exampleState
  ∧ (∀ r, r ∈ flatElements exampleState -> 1 <= level r <= maxDepth exampleState)
  ∧ ∃ r, r ∈ flatElements exampleState ∧ level r = maxDepth exampleState.
Proof.
  split; [apply example_state|].
  destruct (setProps_levels_within_maxDepth 3 exampleProps exampleState example_state)
    as (Hall & Hmax & _).
  split; [exact Hall|]. apply Hmax. discriminate.
Defined.

(** The row at index 2 of the example in an object literal holds [D], a
    node of the store; with [toString] as the child of [A], the second row
    holds the inherited method. *)
Lemma rows_read_example :
  elements (propsOf exampleObject (Some "A") None)
    = propertiesOf objectPrototype exampleElements
  ∧ setProps 3 (propsOf exampleObject (Some "A") None) = Some exampleState
  ∧ flatElements exampleState !! 2%nat = Some rowD
  ∧ flatKeys exampleState !! 2%nat = Some (key rowD)
  ∧ (exampleElements !! key rowD = Some (element rowD)
     ∨ (exampleElements !! key rowD = None
        ∧ objectPrototype !! key rowD = Some (element rowD))).
Proof.
  split; [reflexivity|].
  assert (setProps 3 (propsOf exampleObject (Some "A") None) = Some exampleState)
    as Hset by by vm_compute.
  split; [exact Hset|]. split; [reflexivity|].
  apply (setProps_rows_hold_what_is_read 3 (propsOf exampleObject (Some "A") None)
           exampleState objectPrototype exampleElements eq_refl Hset).
  reflexivity.
Defined.

(** A key press on the example ends in one of the ways of
    [onKeyDown_one_request]. *)
Lemma one_request_example :
  setProps 3 exampleProps = Some exampleState
  ∧ match onKeyDown (js "linux") (press "ArrowLeft") exampleProps exampleState with
    | Completed log =>
        log = []
        ∨ (log = [PreventDefault] ∧ ev_key (press "ArrowLeft") = js "ArrowLeft")
        ∨ ∃ x, log = [PreventDefault; x] ∧ Request exampleProps exampleState x
    | TypeError log =>
        log = [] ∧ ev_key (press "ArrowLeft") = js "ArrowRight"
        ∧ ∃ sel el, selected exampleProps = Some sel
            ∧ elements exampleProps !! sel = Some el ∧ el_children el = None
    end.
Proof.
  split; [apply example_state|].
  apply (onKeyDown_one_request (js "linux") (press "ArrowLeft") exampleProps 3 exampleState).
  apply example_state.
Defined.

(** [ctrl]+[c] on Linux copies the name of [B]. *)
Lemma copy_example :
  setProps 3 exampleProps = Some exampleState
  ∧ selected exampleProps = Some (js "B")
  ∧ firstAt (flatKeys exampleState) 1 (js "B")
  ∧ ∃ el, elements exampleProps !! js "B" = Some el
      ∧ onKeyDown (js "linux") {| ev_key := js "c"; metaKey := false; ctrlKey := true |}
          exampleProps exampleState
        = Completed [PreventDefault; ClipboardWriteText (el_name el)].
Proof.
  split; [apply example_state|]. split; [reflexivity|]. split; [apply example_B_at_1|].
  apply (copy_shortcut (js "linux") {| ev_key := js "c"; metaKey := false; ctrlKey := true |}
           exampleProps 3 exampleState (js "B") 1);
    [apply example_state|reflexivity|apply example_B_at_1|reflexivity].
Defined.

Lemma example_D_at_2 : firstAt (flatKeys exampleState) 2 (js "D").
Proof. apply NoDup_firstAt; [apply example_keys_NoDup|reflexivity]. Qed.

Lemma example_A_at_0 : firstAt (flatKeys exampleState) 0 (js "A").
Proof. apply NoDup_firstAt; [apply example_keys_NoDup|reflexivity]. Qed.

(** ArrowLeft on [D] finds its parent row at an index below 2. *)
Lemma tree_parent_example :
  setProps 3 (propsOf exampleElements (Some "A") (Some "D")) = Some exampleState
  ∧ firstAt (flatKeys exampleState) 2 (js "D")
  ∧ ∃ j p, (j < 2)%nat ∧ flatElements exampleState !! j = Some p
      ∧ exampleElements !! key p = Some (element p)
      ∧ el_expanded (element p) = true
      ∧ js "D" ∈ childrenOf (element p)
      ∧ onKeyDown (js "linux") (press "ArrowLeft")
          (propsOf exampleElements (Some "A") (Some "D")) exampleState
        = Completed (PreventDefault ::
            if truthy (key p) then [OnElementSelected (Some (key p))] else []).
Proof.
  split; [by vm_compute|]. split; [apply example_D_at_2|].
  apply (ArrowLeft_selects_tree_parent (js "linux") (press "ArrowLeft")
           (propsOf exampleElements (Some "A") (Some "D")) 3 exampleState
           (js "D") (node "D" false []) 2);
    [by vm_compute|reflexivity|apply example_D_at_2|reflexivity|reflexivity|reflexivity|lia].
Defined.

(** On [A], ArrowRight and ArrowDown both select [B]. *)
Lemma right_is_down_example :
  setProps 3 (propsOf exampleElements (Some "A") (Some "A")) = Some exampleState
  ∧ flatKeys exampleState !! 1%nat = Some (js "B")
  ∧ onKeyDown (js "linux") (press "ArrowRight")
      (propsOf exampleElements (Some "A") (Some "A")) exampleState
    = Completed [PreventDefault; OnElementSelected (Some (js "B"))]
  ∧ onKeyDown (js "linux") (press "ArrowDown")
      (propsOf exampleElements (Some "A") (Some "A")) exampleState
    = Completed [PreventDefault; OnElementSelected (Some (js "B"))].
Proof.
  split; [by vm_compute|].
  apply (ArrowRight_is_ArrowDown (js "linux") (press "ArrowRight") (press "ArrowDown")
           (propsOf exampleElements (Some "A") (Some "A")) 3 exampleState
           (js "A") (node "A" true ["B"; "C"]) 0 (js "B") [js "C"]);
    [by vm_compute|reflexivity|apply example_A_at_0|reflexivity|reflexivity|reflexivity
    | |reflexivity|reflexivity].
  by eexists.
Defined.

(** From [B] down to [D] and back up to [B]. *)
Lemma down_up_example :
  setProps 3 exampleProps = Some exampleState
  ∧ NoDup (flatKeys exampleState)
  ∧ onKeyDown (js "linux") (press "ArrowDown") exampleProps exampleState
    = Completed [PreventDefault; OnElementSelected (Some (js "D"))]
  ∧ onKeyDown (js "linux") (press "ArrowUp")
      (propsOf exampleElements (Some "A") (Some "D")) exampleState
    = Completed [PreventDefault; OnElementSelected (Some (js "B"))].
Proof.
  split; [apply example_state|]. split; [apply example_keys_NoDup|].
  apply (ArrowDown_ArrowUp_inverse (js "linux") (press "ArrowDown") (press "ArrowUp")
           exampleProps (propsOf exampleElements (Some "A") (Some "D")) 3 exampleState
           (js "B") (js "D") 1);
    first [apply example_state|apply example_keys_NoDup|reflexivity].
Defined.

(** From [B] right to [D] and back left to [B]. *)
Lemma right_left_example :
  setProps 3 exampleProps = Some exampleState
  ∧ NoDup (flatKeys exampleState)
  ∧ onKeyDown (js "linux") (press "ArrowRight") exampleProps exampleState
    = Completed [PreventDefault; OnElementSelected (Some (js "D"))]
  ∧ onKeyDown (js "linux") (press "ArrowLeft")
      (propsOf exampleElements (Some "A") (Some "D")) exampleState
    = Completed [PreventDefault; OnElementSelected (Some (js "B"))].
Proof.
  split; [apply example_state|]. split; [apply example_keys_NoDup|].
  apply (ArrowRight_ArrowLeft_inverse (js "linux") (press "ArrowRight") (press "ArrowLeft")
           exampleProps (propsOf exampleElements (Some "A") (Some "D")) 3 exampleState
           (js "B") (node "B" true ["D"]) (js "D") [] (node "D" false []) 1);
    first [apply example_state|apply example_keys_NoDup|reflexivity].
Defined.

(** The selected row of [B] shows a line of height 19: one row below. *)
Lemma line_example :
  elements (propsOf exampleObject (Some "A") (Some "B"))
    = propertiesOf objectPrototype exampleElements
  ∧ setProps 3 (propsOf exampleObject (Some "A") (Some "B")) = Some exampleState
  ∧ flatElements exampleState !! 1%nat = Some rowB
  ∧ chrome_line (ElementsRowChrome (D:=unit) exampleColors
                   (buildRow (propsOf exampleObject (Some "A") (Some "B")) exampleState rowB 1)
                   initialRowState None)
    = Some 19
  ∧ ∃ sub, Preorder exampleObject (js "B") 2 (rowB :: sub)
      ∧ 19 = ROW_HEIGHT * Z.of_nat (length sub) - 4.
Proof.
  split; [reflexivity|].
  assert (setProps 3 (propsOf exampleObject (Some "A") (Some "B")) = Some exampleState)
    as Hset by by vm_compute.
  split; [exact Hset|]. split; [reflexivity|]. split; [by vm_compute|].
  destruct (row_line_spans_visible_subtree (D:=unit) exampleColors 3
              (propsOf exampleObject (Some "A") (Some "B"))
              exampleState rowB 1 initialRowState None
              objectPrototype exampleElements eq_refl Hset eq_refl) as [_ Hline].
  destruct (Hline 19) as (_ & Hsub & _); [by vm_compute|]. exact Hsub.
Defined.

(** Enter, click, leave on the row of [B], with a hover handler. *)
Lemma hover_example :
  Forall (fun ev => ev ≠ MouseEnter ∧ ev ≠ MouseLeave) [Click]
  ∧ onMouseAll true (buildRow exampleProps exampleState rowB 1)
      [MouseEnter; Click; MouseLeave] initialRowState
    = (initialRowState,
       [OnElementHovered (Some (js "B"));
        Host (OnElementSelected (Some (js "B")));
        Interaction (js "selected") 2;
        OnElementHovered None]).
Proof.
  assert (Forall (fun ev => ev ≠ MouseEnter ∧ ev ≠ MouseLeave) [Click]) as Hclicks
    by (repeat constructor; discriminate).
  split; [exact Hclicks|].
  exact (proj1 (hover_round_trip (D:=unit) exampleColors true
                  (buildRow exampleProps exampleState rowB 1) [Click] None Hclicks)).
Defined.

(** In the example only the row of [B] is selected. *)
Lemma one_selected_example :
  setProps 3 exampleProps = Some exampleState
  ∧ NoDup (flatKeys exampleState)
  ∧ length (renderRows exampleProps exampleState) = 4%nat
  ∧ ∃ i rp, renderRows exampleProps exampleState !! i = Some rp ∧ row_selected rp = true.
Proof.
  split; [apply example_state|]. split; [apply example_keys_NoDup|].
  destruct (at_most_one_row_selected 3 exampleProps exampleState
              example_state example_keys_NoDup) as (Hlen & _ & _ & Hsome).
  split; [exact Hlen|]. apply (Hsome (js "B")); [reflexivity|].
  apply list_elem_of_further, list_elem_of_here.
Defined.

(** The rows of [A] and of [D] (indexes 0 and 2) are striped, that of [C]
    (index 3) is not. *)
Lemma zebra_example :
  renderRows exampleProps exampleState !! 3%nat
    = Some (buildRow exampleProps exampleState (rowOf (js "C") (node "C" false []) 2) 3)
  ∧ backgroundColor exampleColors
      (buildRow exampleProps exampleState (rowOf (js "C") (node "C" false []) 2) 3)
    = js "".
Proof.
  split; [reflexivity|].
  apply (zebra_stripes exampleColors exampleProps exampleState 3); reflexivity.
Defined.

(** The padding of the rows of [A] and of [D]: 0 and 24. *)
Lemma indentation_example :
  setProps 3 exampleProps = Some exampleState
  ∧ css_paddingLeft (ElementsRowContainer exampleColors
                       (buildRow exampleProps exampleState rowA 0)) = 0
  ∧ 0 <= css_paddingLeft (ElementsRowContainer exampleColors
                            (buildRow exampleProps exampleState rowD 2))
      <= 12 * (maxDepth exampleState - 1).
Proof.
  split; [apply example_state|].
  destruct (indentation_follows_tree exampleColors 3 exampleProps exampleState example_state)
    as (Hbound & Hroot & _).
  split; [by apply Hroot|by apply Hbound].
Defined.
